(** * Dense matrix multiplication: serial, task-based and thread-pool variants

    A shallow embedding of [src/main.cpp] (class template [Matrix<T>]) and
    the properties of its three multipliers.

    - The element type [T] of the template is kept abstract: a type with a
      zero and two binary operations, and no algebraic law.  Every theorem
      that does not list laws as hypotheses therefore holds for [double]
      with IEEE rounding as well as for exact number types.
    - [size_t] and [unsigned int] values are natural numbers.  The only
      arithmetic the multipliers do on them is [++i], [rows / num_threads],
      [rows % num_threads], [chunk_size + 1] and [start + thread_rows];
      each result is bounded by [rows] (lemma [partitions_bounded]), so the
      wrap-around of the machine types is never reached.
    - [std::vector::operator[]] is unchecked.  Reads outside a vector are
      modelled by the element zero and writes outside by no change; lemma
      [serial_work_in_bounds] shows that, for well-formed operands that
      pass the dimension guard, no statement of the triple loop indexes
      outside a vector, and the units of the concurrent multipliers
      execute the same statements.
    - A unit of execution ([std::async] task or [std::thread]) is the
      finite list of statements [result.data[i][j] += data[i][k] *
      other.data[k][j]] its loops execute.  The scheduler is a list of unit
      numbers: at each entry the named unit executes its next statement.
      The joins then wait for whatever is left.  Every theorem about the
      concurrent multipliers quantifies over all schedules.  In the program
      a unit may start as soon as it is launched; launching all units
      first, as the model does, only adds interleavings.  A statement is
      taken as one step: no two units ever touch the same element (lemmas
      [async_units_separated] and [pool_units_separated]). *)

From Stdlib Require Import ZArith Floats String Ascii.
From stdpp Require Import base relations list.

Set Default Proof Using "Type".

(** ** Element type of the template *)

Class Numeric (T : Type) := {
  zero : T;
  add : T → T → T;
  mul : T → T → T
}.

#[export] Instance Z_Numeric : Numeric Z :=
  {| zero := 0%Z; add := Z.add; mul := Z.mul |}.

(** [double], the element type [main] uses: IEEE 754 binary64 with
    rounding to nearest. *)
#[export] Instance double_Numeric : Numeric float :=
  {| zero := 0%float; add := PrimFloat.add; mul := PrimFloat.mul |}.

(** ** The matrix container *)

Record Matrix (T : Type) := mkMatrix {
  data : list (list T);
  rows : nat;
  cols : nat
}.
Arguments mkMatrix {T} _ _ _.
Arguments data {T} _.
Arguments rows {T} _.
Arguments cols {T} _.

(** What a call can end in: [return result], [throw std::invalid_argument],
    or undefined behaviour.  The fault of the code is the integer division
    by zero; [no_result] stands for returning a [result] that was never
    constructed, which no multiplier does (lemma
    [result_always_constructed]). *)
Inductive exn := invalid_argument.
Inductive fault := division_by_zero | no_result.

Inductive outcome (T : Type) :=
  | Returned (m : Matrix T)
  | Thrown (e : exn)
  | Undefined (u : fault).
Arguments Returned {T} _.
Arguments Thrown {T} _.
Arguments Undefined {T} _.

(** The one statement that writes: [result.data[i][j] += data[i][k] *
    other.data[k][j]]. *)
Inductive op := Acc (i j k : nat).

Definition op_row (o : op) : nat := match o with Acc i _ _ => i end.

Definition task := list op.

Section Multiplication.
Context {T : Type} `{Numeric T}.

(** [Matrix(size_t r, size_t c)]: [r] rows of [c] zeros. *)
Definition Matrix_new (r c : nat) : Matrix T :=
  mkMatrix (replicate r (replicate c zero)) r c.

(** The class invariant: [rows] rows of [cols] elements each. *)
Definition wf (M : Matrix T) : Prop :=
  length (data M) = rows M ∧ Forall (λ row, length row = cols M) (data M).

(** [d[i][j]] as an optional value, and with the default for indices
    outside the vectors. *)
Definition lookup2 (d : list (list T)) (i j : nat) : option T :=
  d !! i ≫= (λ row, row !! j).

Definition elem (d : list (list T)) (i j : nat) : T :=
  default zero (lookup2 d i j).

(** [randomInit]: every element is overwritten, in row-major order, by
    the next value of the distribution; [dis n] is the n-th value drawn
    from the generator seeded by [std::random_device]. *)
Definition randomInit (dis : nat → T) (M : Matrix T) : Matrix T :=
  mkMatrix
    (imap (λ i row, imap (λ j _, dis (i * cols M + j)) row) (data M))
    (rows M) (cols M).

(** *** The state of one call

    [this] and [other] are the operands, [result] the local result
    matrix once it is constructed, [units] the launched units of
    execution ([futures] or [threads]) with the statements each still has
    to execute. *)
Record state := State {
  this : Matrix T;
  other : Matrix T;
  result : option (Matrix T);
  units : list task
}.

Record run := Run { ret : outcome T; final : state }.

Definition enter (A B : Matrix T) : state := State A B None [].

Definition declare_result (M : Matrix T) (s : state) : state :=
  State (this s) (other s) (Some M) (units s).

Definition set_units (us : list task) (s : state) : state :=
  State (this s) (other s) (result s) us.

Definition set_data (d : list (list T)) (M : Matrix T) : Matrix T :=
  mkMatrix d (rows M) (cols M).

Definition exec (o : op) (s : state) : state :=
  match o with
  | Acc i j k =>
      let a := elem (data (this s)) i k in
      let b := elem (data (other s)) k j in
      State (this s) (other s)
        ((λ R, set_data (alter (alter (λ x, add x (mul a b)) j) i (data R)) R)
           <$> result s)
        (units s)
  end.

(** [for (size_t i = lo; i < hi; ++i) body] *)
Definition for_loop {S : Type} (lo hi : nat) (body : nat → S → S) (s : S) : S :=
  fold_left (λ s i, body i s) (seq lo (hi - lo)) s.

(** [return result;] *)
Definition return_result (s : state) : run :=
  match result s with
  | Some M => Run (Returned M) s
  | None => Run (Undefined no_result) s
  end.

(** *** Serial multiplier *)
Definition multiply_serial (A B : Matrix T) : run :=
  let s := enter A B in
  if negb (cols (this s) =? rows (other s)) then Run (Thrown invalid_argument) s
  else
    let s := declare_result (Matrix_new (rows (this s)) (cols (other s))) s in
    let s :=
      for_loop 0 (rows (this s)) (λ i,
        for_loop 0 (cols (other s)) (λ j,
          for_loop 0 (cols (this s)) (λ k,
            exec (Acc i j k)))) s in
    return_result s.

(** *** Units of execution *)

(** The statements executed by [for (size_t i = lo; i < hi; ++i) body],
    when [body i] executes the statements [f i]. *)
Definition for_ops (lo hi : nat) (f : nat → task) : task :=
  flat_map f (seq lo (hi - lo)).

(** The body shared by the two lambdas: the [j] and [k] loops for row
    [i].  The bounds are read through the captured references. *)
Definition row_work (s : state) (i : nat) : task :=
  for_ops 0 (cols (other s)) (λ j,
    for_ops 0 (cols (this s)) (λ k, [Acc i j k])).

Definition run_ops (w : task) (s : state) : state :=
  fold_left (λ s o, exec o s) w s.

(** [futures.push_back(std::async(...))] and [threads.emplace_back(...)]. *)
Definition spawn (w : task) (s : state) : state :=
  set_units (units s ++ [w]) s.

(** The scheduler lets unit [t] execute its next statement; naming a
    unit that has finished, or no unit, changes nothing. *)
Definition step_unit (t : nat) (s : state) : state :=
  match units s !! t with
  | Some (o :: rest) => exec o (set_units (<[t := rest]> (units s)) s)
  | _ => s
  end.

Definition run_schedule (sched : list nat) (s : state) : state :=
  fold_left (λ s t, step_unit t s) sched s.

(** [fut.wait()] and [thread.join()]: unit [t] runs to completion. *)
Definition wait (t : nat) (s : state) : state :=
  match units s !! t with
  | Some w => set_units (<[t := []]> (units s)) (run_ops w s)
  | None => s
  end.

Definition wait_all (s : state) : state :=
  for_loop 0 (length (units s)) wait s.

(** *** Task-based multiplier *)
Definition multiply_async (sched : list nat) (A B : Matrix T) : run :=
  let s := enter A B in
  if negb (cols (this s) =? rows (other s)) then Run (Thrown invalid_argument) s
  else
    let s := declare_result (Matrix_new (rows (this s)) (cols (other s))) s in
    let s := for_loop 0 (rows (this s)) (λ i s, spawn (row_work s i) s) s in
    let s := run_schedule sched s in
    let s := wait_all s in
    return_result s.

(** *** Thread-pool multiplier *)

(** The loop over [t] with its running [start]; [launch start
    thread_rows] is what one iteration appends. *)
Definition partition_loop {X : Type} (chunk_size remainder num_threads : nat)
    (launch : nat → nat → X) : list X :=
  fst (for_loop 0 num_threads (λ t '(xs, start),
         let thread_rows := chunk_size + (if t <? remainder then 1 else 0) in
         (xs ++ [launch start thread_rows], start + thread_rows))
       ([], 0)).

(** [hardware_concurrency] is the value [std::thread::hardware_concurrency()]
    returns.  Dividing by a [num_threads] of zero is undefined behaviour. *)
Definition multiply_thread_pool (hardware_concurrency : nat) (sched : list nat)
    (A B : Matrix T) : run :=
  let s := enter A B in
  if negb (cols (this s) =? rows (other s)) then Run (Thrown invalid_argument) s
  else
    let s := declare_result (Matrix_new (rows (this s)) (cols (other s))) s in
    let num_threads := hardware_concurrency in
    if num_threads =? 0 then Run (Undefined division_by_zero) s
    else
      let chunk_size := rows (this s) / num_threads in
      let remainder := rows (this s) mod num_threads in
      let s :=
        set_units
          (partition_loop chunk_size remainder num_threads (λ start thread_rows,
             for_ops start (start + thread_rows) (row_work s))) s in
      let s := run_schedule sched s in
      let s := wait_all s in
      return_result s.

(** *** Vocabulary of the properties *)

Implicit Types (A B M : Matrix T) (s : state).

(** The state after the guard and the construction of [result]. *)
Definition body_state A B : state :=
  declare_result (Matrix_new (rows A) (cols B)) (enter A B).

(** All statements of the triple loop, in the order of the serial
    multiplier. *)
Definition all_work A B : task :=
  for_ops 0 (rows A) (row_work (body_state A B)).

(** The threads of the pool, as the loop creates them. *)
Definition pool_units s (P : nat) : list task :=
  partition_loop (rows (this s) / P) (rows (this s) mod P) P
    (λ start thread_rows, for_ops start (start + thread_rows) (row_work s)).

(** The matrix the serial loops leave in [result]. *)
Definition serial_result A B : option (Matrix T) :=
  result (run_ops (all_work A B) (body_state A B)).

(** No two units hold statements for the same row. *)
Definition separated (us : list task) : Prop :=
  ∀ t u wt wu ot ou,
    t ≠ u → us !! t = Some wt → us !! u = Some wu →
    In ot wt → In ou wu → op_row ot ≠ op_row ou.

(** What the joins leave: every statement still pending has been
    executed, unit after unit. *)
Definition drain (s : state) : state :=
  set_units (map (λ _, []) (units s)) (run_ops (concat (units s)) s).

(** One step of an interleaved execution: some unit that has a statement
    left executes it. *)
Inductive step : state → state → Prop :=
  | step_next s t o rest :
      units s !! t = Some (o :: rest) →
      step s (exec o (set_units (<[t := rest]> (units s)) s)).

(** The number of statements the units still have to execute. *)
Definition pending s : nat := length (concat (units s)).

(** The sum of the specification: [f 0 + f 1 + ... + f (n-1)], added up
    from the left, starting from zero. *)
Fixpoint sigma (n : nat) (f : nat → T) : T :=
  match n with
  | 0 => zero
  | S n' => add (sigma n' f) (f n')
  end.

(** The product [A[i][k] * B[k][j]]. *)
Definition term A B (i j k : nat) : T :=
  mul (elem (data A) i k) (elem (data B) k j).

(** What a statement does to the accumulator of position [(i, j)]. *)
Definition contrib A B (i j : nat) (o : op) (acc : T) : T :=
  match o with
  | Acc i' j' k =>
      if decide (i' = i ∧ j' = j) then add acc (term A B i j k) else acc
  end.

(** What a list of statements does to the accumulator of position
    [(i, j)]. *)
Definition accumulate A B (i j : nat) (w : task) (acc : T) : T :=
  fold_left (λ acc o, contrib A B i j o acc) w acc.

(** The [K]×[K] identity matrix of the test suite: the element [one] on
    the diagonal, zero elsewhere. *)
Definition identity (one : T) (K : nat) : Matrix T :=
  mkMatrix
    (map (λ i, map (λ j, if decide (i = j) then one else zero) (seq 0 K))
       (seq 0 K))
    K K.

(** Every element of [A] satisfies [usable]. *)
Definition usable_matrix (usable : T → Prop) A : Prop :=
  Forall (Forall usable) (data A).

(** What a rejected call leaves behind: the exception, no result matrix,
    no unit of execution, and the operands as they were. *)
Definition rejected A B (r : run) : Prop :=
  ret r = Thrown invalid_argument ∧
  result (final r) = None ∧ units (final r) = [] ∧
  this (final r) = A ∧ other (final r) = B.

(** *** The rest of the class: generator, output, benchmark *)

(** [randomInit] with its generator made explicit: [n] values have been
    drawn so far, and every [val = dis(gen)] draws the next one. *)
Definition randomInit_row (dis : nat → T) (row : list T) (n : nat) :
    list T * nat :=
  fold_left (λ '(filled, n) _, (filled ++ [dis n], S n)) row ([], n).

Definition randomInit_from (dis : nat → T) (M : Matrix T) (n : nat) :
    Matrix T * nat :=
  let '(d, n') :=
    fold_left (λ '(filled, n) row,
        let '(row', n') := randomInit_row dis row n in (filled ++ [row'], n'))
      (data M) ([], n) in
  (mkMatrix d (rows M) (cols M), n').

(** What is inserted into [std::cout]: a string literal, the count of a
    duration, or an element.  Formatting is the stream's business. *)
Inductive item :=
  | Str (text : string)
  | Count (n : Z)
  | Val (v : T).

(** The outside world of [benchmark] and [print]: how often the clock has
    been read, and what has been written to [std::cout]. *)
Record io := IO { reads : nat; out : list item }.

Definition put (x : item) (w : io) : io := IO (reads w) (out w ++ [x]).

Definition newline : string := String "010" EmptyString.


(** What the platform decides: the readings of
    [high_resolution_clock::now()] in the order of the calls, the count of
    microseconds [duration_cast] gives for a difference of readings, the
    value of [hardware_concurrency()], and the schedules of the two
    concurrent multipliers. *)
Record platform := Platform {
  clock : nat → Z;
  microseconds : Z → Z;
  concurrency : nat;
  schedule_async : list nat;
  schedule_pool : list nat
}.

Definition now (pf : platform) (w : io) : Z * io :=
  (clock pf (reads w), IO (S (reads w)) (out w)).

(** How a [void] function ends: it returns, an exception leaves it, or it
    runs into undefined behaviour. *)
Inductive completion :=
  | Completed
  | Raised (e : exn)
  | Crashed (u : fault).

(** The object [benchmark] is called on, its argument, and the world. *)
Record bench := Bench { self : Matrix T; arg : Matrix T; world : io }.

(** One of the three blocks of [benchmark]: read the clock, multiply, read
    the clock, print the line.  An exception of the multiplier leaves the
    block at the call. *)
Definition timed (pf : platform) (label : string)
    (multiply : Matrix T → Matrix T → run) (b : bench) : completion * bench :=
  let '(start, w) := now pf (world b) in
  let r := multiply (self b) (arg b) in
  let b := Bench (this (final r)) (other (final r)) w in
  match ret r with
  | Returned _ =>
      let '(end_, w) := now pf (world b) in
      let duration := microseconds pf (end_ - start)%Z in
      (Completed,
       Bench (self b) (arg b)
         (put (Str (" µs" ++ newline)) (put (Count duration) (put (Str label) w))))
  | Thrown e => (Raised e, b)
  | Undefined u => (Crashed u, b)
  end.

Definition benchmark (pf : platform) (b : bench) : completion * bench :=
  match timed pf "Serial Multiplication Time: " multiply_serial b with
  | (Completed, b) =>
      match timed pf "Async Multiplication Time: "
              (multiply_async (schedule_async pf)) b with
      | (Completed, b) =>
          timed pf "Thread Pool Multiplication Time: "
            (multiply_thread_pool (concurrency pf) (schedule_pool pf)) b
      | stopped => stopped
      end
  | stopped => stopped
  end.






(** The three timing lines of a completed [benchmark], for the counts
    [d1], [d2], [d3]. *)
Definition report (d1 d2 d3 : Z) : list item :=
  [Str "Serial Multiplication Time: "; Count d1; Str (" µs" ++ newline);
   Str "Async Multiplication Time: "; Count d2; Str (" µs" ++ newline);
   Str "Thread Pool Multiplication Time: "; Count d3; Str (" µs" ++ newline)].

(** A statement indexes inside the vectors of both operands and of a
    result of [rows A] × [cols B]. *)
Definition in_bounds A B (o : op) : Prop :=
  match o with
  | Acc i j k =>
      (i < rows A ∧ j < cols B ∧ k < cols A) ∧
      is_Some (lookup2 (data A) i k) ∧ is_Some (lookup2 (data B) k j)
  end.

(** The states in which the units of the two concurrent multipliers start
    to run: one unit per row, and the threads of the pool. *)
Definition launched_async A B : state :=
  set_units (map (row_work (body_state A B)) (seq 0 (rows A))) (body_state A B).

Definition launched_pool (P : nat) A B : state :=
  set_units (pool_units (body_state A B) P) (body_state A B).

(** [A1] on top of [A2]. *)
Definition stack A1 A2 : Matrix T :=
  mkMatrix (data A1 ++ data A2) (rows A1 + rows A2) (cols A1).

End Multiplication.

(** The row ranges [(start, thread_rows)] the thread-pool multiplier hands
    out for [R] rows and [P] threads. *)
Definition partitions (R P : nat) : list (nat * nat) :=
  partition_loop (R / P) (R mod P) P (λ start thread_rows, (start, thread_rows)).

Definition range_rows (p : nat * nat) : list nat := seq (fst p) (snd p).

(** Closed forms for the number of rows and the first row of thread [t]. *)
Definition size_of (chunk_size remainder t : nat) : nat :=
  chunk_size + (if t <? remainder then 1 else 0).

Definition start_of (chunk_size remainder t : nat) : nat :=
  t * chunk_size + t `min` remainder.

(** The concrete scenario of the test suite, at the element type [Z]. *)
Definition A22 : Matrix Z := mkMatrix [[1; 2]; [3; 4]]%Z 2 2.
Definition B22 : Matrix Z := mkMatrix [[5; 6]; [7; 8]]%Z 2 2.
Definition C22 : Matrix Z := mkMatrix [[19; 22]; [43; 50]]%Z 2 2.
Definition A12 : Matrix Z := mkMatrix [[1; 2]]%Z 1 2.
Definition B11 : Matrix Z := mkMatrix [[3]]%Z 1 1.
Definition A20 : Matrix Z := mkMatrix [[]; []] 2 0.
Definition B03 : Matrix Z := mkMatrix [] 0 3.

(** The same scenario in [double], and a matrix with an infinite element. *)
Definition A22d : Matrix float := mkMatrix [[1; 2]; [3; 4]]%float 2 2.
Definition B22d : Matrix float := mkMatrix [[5; 6]; [7; 8]]%float 2 2.
Definition C22d : Matrix float := mkMatrix [[19; 22]; [43; 50]]%float 2 2.
Definition A12inf : Matrix float := mkMatrix [[infinity; 1%float]] 1 2.

(** The [double] nearest to [1e-9]. *)
Definition tolerance : float := 0x1.12e0be826d695p-30%float.

(** Equality within the tolerance of the specification: [x == y], or a
    relative error [|x - y| / |y|] of at most [1e-9]. *)
Definition within_tolerance (x y : float) : bool :=
  (x =? y)%float || (abs (x - y) <=? tolerance * abs y)%float.

(** The elements of [double] a matrix may hold for the identity check, its
    zeros ([+0] and [-0]), and the equality [==] of [double]. *)
Definition double_finite (x : float) : Prop := PrimFloat.is_finite x = true.
Definition double_zero (x : float) : Prop := PrimFloat.is_zero x = true.
Definition double_close (x y : float) : Prop := (x =? y)%float = true.


(** [main]: two 500×500 matrices of [double], each filled by its own
    generator, and one [benchmark].  [Completed] is [return 0]. *)
Definition SIZE : nat := 500.

Definition main (pf : platform) (dis_A dis_B : nat → float) :
    completion * io :=
  let A := Matrix_new SIZE SIZE in
  let B := Matrix_new SIZE SIZE in
  let A := fst (randomInit_from dis_A A 0) in
  let B := fst (randomInit_from dis_B B 0) in
  let r := benchmark pf (Bench A B (IO 0 [])) in
  (fst r, world (snd r)).

Ltac wf_by_computation := split; [reflexivity | repeat constructor].

(** * Row partitioning *)

Section Partitioning.
Variables chunk_size remainder : nat.

Local Abbreviation size := (size_of chunk_size remainder).
Local Abbreviation start := (start_of chunk_size remainder).

Lemma start_of_S t : start (S t) = start t + size t.
Proof.
  unfold start_of, size_of. rewrite Nat.mul_succ_l.
  destruct (Nat.ltb_spec t remainder); lia.
Qed.

Lemma start_of_mono t u : t ≤ u → start t ≤ start u.
Proof.
  induction 1 as [|u _ IH]; [done|]. rewrite start_of_S. lia.
Qed.

Lemma partition_fold {X : Type} (launch : nat → nat → X) todo :
  ∀ t xs,
    fold_left (λ (acc : list X * nat) t,
        let '(xs, from) := acc in
        let thread_rows := chunk_size + (if t <? remainder then 1 else 0) in
        (xs ++ [launch from thread_rows], from + thread_rows))
      (seq t todo) (xs, start t)
    = (xs ++ map (λ u, launch (start u) (size u)) (seq t todo),
       start (t + todo)).
Proof.
  induction todo as [|todo IH]; intros t xs; simpl.
  - by rewrite app_nil_r, Nat.add_0_r.
  - fold (size t). rewrite <- start_of_S, IH.
    by rewrite <- app_assoc, Nat.add_succ_r.
Qed.

Lemma partition_loop_map {X : Type} (launch : nat → nat → X) num_threads :
  partition_loop chunk_size remainder num_threads launch
  = map (λ t, launch (start t) (size t)) (seq 0 num_threads).
Proof.
  unfold partition_loop, for_loop. rewrite Nat.sub_0_r.
  pose proof (partition_fold launch num_threads 0 []) as E.
  etrans; [exact (f_equal fst E)|done].
Qed.

Lemma ranges_concat n :
  ∀ t, concat (map (λ u, seq (start u) (size u)) (seq t n))
       = seq (start t) (start (t + n) - start t).
Proof.
  induction n as [|n IH]; intros t; cbn [seq map concat].
  - by rewrite Nat.add_0_r, Nat.sub_diag.
  - rewrite IH. replace (S t + n) with (t + S n) by lia.
    pose proof (start_of_S t) as HS.
    pose proof (start_of_mono (S t) (t + S n) ltac:(lia)) as Hm.
    replace (start (t + S n) - start t)
      with (size t + (start (t + S n) - start (S t))) by lia.
    by rewrite seq_app, HS.
Qed.
End Partitioning.

Lemma partitions_map R P :
  partitions R P
  = map (λ t, (start_of (R / P) (R mod P) t, size_of (R / P) (R mod P) t)) (seq 0 P).
Proof. apply partition_loop_map. Qed.

Lemma partitions_length R P : length (partitions R P) = P.
Proof. by rewrite partitions_map, length_map, length_seq. Qed.

Lemma partitions_lookup R P t p :
  partitions R P !! t = Some p ↔
  t < P ∧ p = (start_of (R / P) (R mod P) t, size_of (R / P) (R mod P) t).
Proof.
  rewrite partitions_map, list_lookup_fmap. split.
  - destruct (seq 0 P !! t) as [u|] eqn:Hu; [|done].
    apply lookup_seq in Hu as [-> ?]. simpl. by intros [= <-].
  - intros [Ht ->]. by rewrite (lookup_seq_lt _ _ _ Ht).
Qed.

Lemma start_of_total R P : 1 ≤ P → start_of (R / P) (R mod P) P = R.
Proof.
  intros HP. unfold start_of.
  pose proof (Nat.mod_upper_bound R P ltac:(lia)).
  pose proof (Nat.div_mod_eq R P). lia.
Qed.

Lemma partitions_concat R P :
  1 ≤ P → concat (map range_rows (partitions R P)) = seq 0 R.
Proof.
  intros HP. rewrite partitions_map, map_map. unfold range_rows. simpl.
  rewrite ranges_concat. simpl. by rewrite start_of_total, Nat.sub_0_r.
Qed.

Lemma partitions_ordered R P t u pt pu r r' :
  t < u → partitions R P !! t = Some pt → partitions R P !! u = Some pu →
  r ∈ range_rows pt → r' ∈ range_rows pu → r < r'.
Proof.
  intros Htu [_ ->]%partitions_lookup [_ ->]%partitions_lookup.
  unfold range_rows. simpl. rewrite !elem_of_seq. intros [_ Hr] [Hr' _].
  pose proof (start_of_S (R / P) (R mod P) t).
  pose proof (start_of_mono (R / P) (R mod P) (S t) u ltac:(lia)). lia.
Qed.

(** * Statements, schedules and joins *)

Section Scheduling.
Context {T : Type} `{Numeric T}.
Implicit Types (s : @state T) (o : op) (w : task) (us : list task).

Lemma exec_this o s : this (exec o s) = this s.
Proof. by destruct o. Qed.

Lemma exec_other o s : other (exec o s) = other s.
Proof. by destruct o. Qed.

Lemma exec_units o s : units (exec o s) = units s.
Proof. by destruct o. Qed.

Lemma exec_set_units us o s : exec o (set_units us s) = set_units us (exec o s).
Proof. by destruct o. Qed.

Lemma run_ops_app w1 w2 s : run_ops (w1 ++ w2) s = run_ops w2 (run_ops w1 s).
Proof. apply fold_left_app. Qed.

Lemma run_ops_this w s : this (run_ops w s) = this s.
Proof.
  revert s. induction w as [|o w IH]; intros s; [done|].
  simpl. by rewrite IH, exec_this.
Qed.

Lemma run_ops_other w s : other (run_ops w s) = other s.
Proof.
  revert s. induction w as [|o w IH]; intros s; [done|].
  simpl. by rewrite IH, exec_other.
Qed.

Lemma run_ops_units w s : units (run_ops w s) = units s.
Proof.
  revert s. induction w as [|o w IH]; intros s; [done|].
  simpl. by rewrite IH, exec_units.
Qed.

Lemma run_ops_set_units us w s :
  run_ops w (set_units us s) = set_units us (run_ops w s).
Proof.
  revert s. induction w as [|o w IH]; intros s; [done|].
  simpl. by rewrite exec_set_units, IH.
Qed.

(** Loops whose bodies execute statement lists execute the
    concatenation of the lists. *)
Lemma for_loop_run_ops lo hi (f : nat → task) s :
  for_loop lo hi (λ i, run_ops (f i)) s = run_ops (for_ops lo hi f) s.
Proof.
  unfold for_loop, for_ops. generalize (seq lo (hi - lo)) as l. intros l.
  revert s. induction l as [|i l IH]; intros s; [done|].
  simpl. by rewrite run_ops_app, IH.
Qed.

Lemma for_loop_ext {S : Type} lo hi (f g : nat → S → S) (s : S) :
  (∀ i x, f i x = g i x) → for_loop lo hi f s = for_loop lo hi g s.
Proof.
  intros E. unfold for_loop. generalize (seq lo (hi - lo)) as l. intros l.
  revert s. induction l as [|i l IH]; intros s; [done|].
  simpl. by rewrite E, IH.
Qed.

(** Statements on different rows commute. *)
Lemma exec_comm o1 o2 s :
  op_row o1 ≠ op_row o2 → exec o1 (exec o2 s) = exec o2 (exec o1 s).
Proof.
  destruct o1 as [i1 j1 k1], o2 as [i2 j2 k2], s as [A B [R|] us];
    simpl; intros Hne; [|done].
  unfold set_data. simpl. do 3 f_equal. by apply list_alter_alter_ne.
Qed.

Lemma run_ops_exec_comm o w s :
  (∀ o', In o' w → op_row o' ≠ op_row o) →
  run_ops w (exec o s) = exec o (run_ops w s).
Proof.
  revert s. induction w as [|o' w IH]; intros s Hw; [done|].
  simpl. rewrite <- IH by (intros; apply Hw; by right).
  f_equal. apply exec_comm, Hw. by left.
Qed.

Lemma separated_step us t o rest :
  separated us → us !! t = Some (o :: rest) → separated (<[t := rest]> us).
Proof.
  intros Hsep Ht t1 t2 w1 w2 o1 o2 Hne H1 H2 Ho1 Ho2.
  pose proof (lookup_lt_Some _ _ _ Ht) as Hlt.
  rewrite list_lookup_insert in H1, H2.
  repeat case_decide; destruct_and?; simplify_eq.
  - eapply (Hsep t1 t2); eauto. by right.
  - eapply (Hsep t1 t2); eauto. by right.
  - eapply (Hsep t1 t2); eauto.
Qed.

Lemma set_units_twice us us' s :
  set_units us (set_units us' s) = set_units us s.
Proof. done. Qed.

Lemma step_unit_drain t s :
  separated (units s) →
  drain (step_unit t s) = drain s ∧ separated (units (step_unit t s)).
Proof.
  intros Hsep. unfold step_unit.
  destruct (units s !! t) as [[|o rest]|] eqn:Ht; [done| |done].
  rewrite exec_units. simpl. split; [|by eapply separated_step].
  pose proof (lookup_lt_Some _ _ _ Ht) as Hlt.
  assert (∀ o', In o' (concat (take t (units s))) → op_row o' ≠ op_row o) as Hpre.
  { intros o' [w [Hw Ho']]%in_concat.
    apply list_elem_of_In, list_elem_of_lookup in Hw as [u Hu].
    pose proof (lookup_lt_Some _ _ _ Hu) as Hul.
    rewrite length_take in Hul.
    rewrite lookup_take_lt in Hu by lia.
    eapply (Hsep u t); eauto; [lia|by left]. }
  unfold drain. rewrite exec_units, exec_set_units, run_ops_set_units.
  rewrite set_units_twice. simpl.
  rewrite insert_take_drop by done.
  rewrite <- (take_drop_middle _ _ _ Ht) at 5 6.
  rewrite !map_app, !concat_app. simpl.
  rewrite !run_ops_app. simpl. by rewrite run_ops_app, run_ops_exec_comm.
Qed.

Lemma run_schedule_drain sched s :
  separated (units s) → drain (run_schedule sched s) = drain s.
Proof.
  revert s. induction sched as [|t sched IH]; intros s Hsep; [done|].
  destruct (step_unit_drain t s Hsep) as [E Hsep'].
  change (run_schedule (t :: sched) s) with (run_schedule sched (step_unit t s)).
  by rewrite IH.
Qed.

Lemma wait_all_drain s : wait_all s = drain s.
Proof.
  unfold wait_all, for_loop, drain. rewrite Nat.sub_0_r.
  assert (∀ us pre s, units s = pre ++ us →
            fold_left (λ s t, wait t s) (seq (length pre) (length us)) s
            = set_units (pre ++ map (λ _, []) us) (run_ops (concat us) s)) as Hgen.
  { clear s. induction us as [|w us IH]; intros pre s Hs; simpl.
    - rewrite app_nil_r in *. rewrite <- Hs. by destruct s.
    - unfold wait at 2. rewrite Hs, list_lookup_middle by done.
      replace (S (length pre)) with (length (pre ++ [[]]))
        by (rewrite length_app; simpl; lia).
      rewrite (IH (pre ++ [[]])).
      + by rewrite run_ops_set_units, run_ops_app, <- app_assoc.
      + simpl. rewrite <- app_assoc. simpl.
        rewrite (insert_app_r_alt pre) by done. by rewrite Nat.sub_diag. }
  apply (Hgen (units s) [] s). done.
Qed.
End Scheduling.

(** * The three multipliers execute the same statements *)

Section Agreement.
Context {T : Type} `{Numeric T}.
Implicit Types (s : @state T) (o : op) (w : task) (us : list task).
Implicit Types (A B M : Matrix T).

Lemma in_row_work s i o :
  In o (row_work s i) →
  ∃ j k, o = Acc i j k ∧ j < cols (other s) ∧ k < cols (this s).
Proof.
  unfold row_work, for_ops. rewrite !Nat.sub_0_r.
  intros [j [Hj [k [Hk Ho]]%in_flat_map]]%in_flat_map.
  apply in_seq in Hj, Hk. destruct Ho as [<-|[]]. exists j, k. split; [done|lia].
Qed.

Lemma in_for_ops lo hi (f : nat → task) o :
  In o (for_ops lo hi f) ↔ ∃ i, lo ≤ i < hi ∧ In o (f i).
Proof.
  unfold for_ops. rewrite in_flat_map. split.
  - intros [i [Hi Ho]]. apply in_seq in Hi. exists i. split; [lia|done].
  - intros [i [Hi Ho]]. exists i. split; [apply in_seq; lia|done].
Qed.

Lemma serial_loops s s' :
  for_loop 0 (rows (this s)) (λ i,
    for_loop 0 (cols (other s)) (λ j,
      for_loop 0 (cols (this s)) (λ k, exec (Acc i j k)))) s'
  = run_ops (for_ops 0 (rows (this s)) (row_work s)) s'.
Proof.
  rewrite <- for_loop_run_ops. apply for_loop_ext. intros i x.
  unfold row_work. rewrite <- for_loop_run_ops. apply for_loop_ext. intros j y.
  by rewrite <- for_loop_run_ops.
Qed.

Lemma spawn_loop s n :
  for_loop 0 n (λ i s, spawn (row_work s i) s) s
  = set_units (units s ++ map (row_work s) (seq 0 n)) s.
Proof.
  unfold for_loop. rewrite Nat.sub_0_r. generalize 0 as lo.
  revert s. induction n as [|n IH]; intros s lo; simpl.
  - rewrite app_nil_r. by destruct s.
  - rewrite IH. unfold spawn, set_units. simpl. by rewrite <- app_assoc.
Qed.

Lemma async_units_separated s n : separated (map (row_work s) (seq 0 n)).
Proof.
  intros t u wt wu ot ou Hne Ht Hu Hot Hou.
  rewrite list_lookup_fmap in Ht, Hu.
  destruct (seq 0 n !! t) as [t'|] eqn:Et; [|done].
  destruct (seq 0 n !! u) as [u'|] eqn:Eu; [|done].
  apply lookup_seq in Et as [-> _], Eu as [-> _]. simplify_eq/=.
  apply in_row_work in Hot as (? & ? & -> & _), Hou as (? & ? & -> & _).
  done.
Qed.

Lemma flat_map_ranges (f : nat → task) (ranges : list (nat * nat)) :
  concat (map (λ p, for_ops (fst p) (fst p + snd p) f) ranges)
  = flat_map f (concat (map range_rows ranges)).
Proof.
  induction ranges as [|[start n] ranges IH]; [done|].
  simpl. rewrite flat_map_app, IH. unfold for_ops, range_rows. simpl.
  by replace (start + n - start) with n by lia.
Qed.

Lemma pool_units_partitions s P :
  pool_units s P
  = map (λ p, for_ops (fst p) (fst p + snd p) (row_work s))
      (partitions (rows (this s)) P).
Proof.
  unfold pool_units. by rewrite partition_loop_map, partitions_map, map_map.
Qed.

Lemma pool_units_concat s P :
  1 ≤ P → concat (pool_units s P) = for_ops 0 (rows (this s)) (row_work s).
Proof.
  intros HP. rewrite pool_units_partitions, flat_map_ranges.
  rewrite partitions_concat by done. unfold for_ops. by rewrite Nat.sub_0_r.
Qed.

Lemma pool_units_separated s P : separated (pool_units s P).
Proof.
  rewrite pool_units_partitions.
  assert (∀ t u pt pu ot ou,
    t < u →
    partitions (rows (this s)) P !! t = Some pt →
    partitions (rows (this s)) P !! u = Some pu →
    In ot (for_ops (fst pt) (fst pt + snd pt) (row_work s)) →
    In ou (for_ops (fst pu) (fst pu + snd pu) (row_work s)) →
    op_row ot < op_row ou) as Hlt.
  { intros t u pt pu ot ou Htu Ht Hu.
    rewrite !in_for_ops. intros (i & Hi & Hot) (i' & Hi' & Hou).
    apply in_row_work in Hot as (? & ? & -> & _), Hou as (? & ? & -> & _).
    simpl. eapply (partitions_ordered _ _ t u pt pu); eauto;
      unfold range_rows; apply elem_of_seq; lia. }
  intros t u wt wu ot ou Hne Ht Hu Hot Hou.
  rewrite list_lookup_fmap in Ht, Hu.
  destruct (partitions _ P !! t) as [pt|] eqn:Et; [|done].
  destruct (partitions _ P !! u) as [pu|] eqn:Eu; [|done].
  simplify_eq/=.
  destruct (decide (t < u)).
  - pose proof (Hlt t u pt pu ot ou ltac:(done) Et Eu Hot Hou). lia.
  - pose proof (Hlt u t pu pt ou ot ltac:(lia) Eu Et Hou Hot). lia.
Qed.

(** Executing statements keeps the result matrix in place, with its
    dimensions. *)
Lemma run_ops_result w s M :
  result s = Some M →
  ∃ M', result (run_ops w s) = Some M' ∧ rows M' = rows M ∧ cols M' = cols M.
Proof.
  revert s M. induction w as [|[i j k] w IH]; intros s M Hs; simpl.
  - eauto.
  - edestruct (IH (exec (Acc i j k) s)) as (M' & ? & ? & ?).
    + simpl. rewrite Hs. done.
    + exists M'. done.
Qed.

Lemma serial_result_Some A B :
  ∃ M, serial_result A B = Some M ∧ rows M = rows A ∧ cols M = cols B.
Proof.
  destruct (run_ops_result (all_work A B) (body_state A B) _ eq_refl)
    as (M & ? & ? & ?).
  by exists M.
Qed.

(** The multipliers, with their loops replaced by the statements the
    loops execute and the units the loops launch. *)
Lemma multiply_serial_unfold A B :
  multiply_serial A B =
  if negb (cols A =? rows B) then Run (Thrown invalid_argument) (enter A B)
  else return_result (run_ops (all_work A B) (body_state A B)).
Proof.
  unfold multiply_serial. cbv zeta. destruct (negb _); [done|].
  exact (f_equal return_result (serial_loops (body_state A B) (body_state A B))).
Qed.

Lemma multiply_async_unfold sched A B :
  multiply_async sched A B =
  if negb (cols A =? rows B) then Run (Thrown invalid_argument) (enter A B)
  else return_result (wait_all (run_schedule sched
         (set_units (map (row_work (body_state A B)) (seq 0 (rows A)))
            (body_state A B)))).
Proof.
  unfold multiply_async. cbv zeta. destruct (negb _); [done|].
  exact (f_equal (λ s, return_result (wait_all (run_schedule sched s)))
           (spawn_loop (body_state A B) (rows A))).
Qed.

Lemma multiply_thread_pool_unfold P sched A B :
  multiply_thread_pool P sched A B =
  if negb (cols A =? rows B) then Run (Thrown invalid_argument) (enter A B)
  else if P =? 0 then Run (Undefined division_by_zero) (body_state A B)
  else return_result (wait_all (run_schedule sched
         (set_units (pool_units (body_state A B) P) (body_state A B)))).
Proof. done. Qed.

Lemma guard_passes A B : cols A = rows B → negb (cols A =? rows B) = false.
Proof. intros ->. by rewrite Nat.eqb_refl. Qed.

Lemma guard_fails A B : cols A ≠ rows B → negb (cols A =? rows B) = true.
Proof. intros Hne. by destruct (Nat.eqb_spec (cols A) (rows B)). Qed.

Lemma multiply_serial_ret A B :
  cols A = rows B →
  ∃ M, serial_result A B = Some M ∧ ret (multiply_serial A B) = Returned M.
Proof.
  intros Hd. destruct (serial_result_Some A B) as (M & HM & _).
  exists M. split; [done|].
  rewrite multiply_serial_unfold, guard_passes by done.
  unfold return_result. fold (serial_result A B). by rewrite HM.
Qed.

Lemma drained_ret sched us A B M :
  separated us → concat us = all_work A B → serial_result A B = Some M →
  ret (return_result (wait_all (run_schedule sched (set_units us (body_state A B)))))
  = Returned M.
Proof.
  intros Hsep Hus HM.
  rewrite wait_all_drain, run_schedule_drain by done.
  unfold drain, return_result. cbn [units set_units result].
  rewrite Hus, run_ops_set_units. cbn [set_units result].
  fold (serial_result A B). by rewrite HM.
Qed.

Lemma multiply_async_ret sched A B :
  cols A = rows B →
  ∃ M, serial_result A B = Some M ∧ ret (multiply_async sched A B) = Returned M.
Proof.
  intros Hd. destruct (serial_result_Some A B) as (M & HM & _).
  exists M. split; [done|].
  rewrite multiply_async_unfold, guard_passes by done.
  apply drained_ret; [apply async_units_separated| |done].
  unfold all_work, for_ops. by rewrite Nat.sub_0_r, flat_map_concat_map.
Qed.

Lemma multiply_thread_pool_ret P sched A B :
  cols A = rows B → 1 ≤ P →
  ∃ M, serial_result A B = Some M
       ∧ ret (multiply_thread_pool P sched A B) = Returned M.
Proof.
  intros Hd HP. destruct (serial_result_Some A B) as (M & HM & _).
  exists M. split; [done|].
  rewrite multiply_thread_pool_unfold, guard_passes by done.
  destruct (Nat.eqb_spec P 0) as [?|_]; [lia|].
  apply drained_ret; [apply pool_units_separated| |done].
  by apply pool_units_concat.
Qed.
End Agreement.

(** * The value of every element *)

Section Elements.
Context {T : Type} `{Numeric T}.
Implicit Types (s : @state T) (o : op) (w : task).
Implicit Types (A B M : Matrix T) (d : list (list T)).

Lemma lookup2_alter d (f : T → T) i j i' j' :
  lookup2 (alter (alter f j) i d) i' j'
  = if decide (i = i' ∧ j = j') then f <$> lookup2 d i j else lookup2 d i' j'.
Proof.
  unfold lookup2. rewrite list_lookup_alter.
  destruct (decide (i = i')) as [<-|Hi].
  - destruct (d !! i) as [row|]; simpl; [|by case_decide].
    rewrite list_lookup_alter.
    destruct (decide (j = j')) as [<-|Hj].
    + rewrite decide_True by done. done.
    + rewrite decide_False by (intros [_ ?]; done). done.
  - rewrite decide_False by (intros [? _]; done). done.
Qed.

Lemma exec_lookup2 o s M i j :
  result s = Some M →
  ∃ M', result (exec o s) = Some M' ∧
        rows M' = rows M ∧ cols M' = cols M ∧
        lookup2 (data M') i j
        = contrib (this s) (other s) i j o <$> lookup2 (data M) i j.
Proof.
  intros HM. destruct o as [i' j' k]. simpl. rewrite HM. simpl.
  eexists. split; [done|]. simpl. split; [done|]. split; [done|].
  rewrite lookup2_alter. case_decide as Hd.
  - destruct Hd as [-> ->].
    destruct (lookup2 (data M) i j); simpl; [|done].
    by rewrite decide_True by done.
  - destruct (lookup2 (data M) i j); simpl; [|done].
    by rewrite decide_False by done.
Qed.

Lemma run_ops_lookup2 w s M i j :
  result s = Some M →
  ∃ M', result (run_ops w s) = Some M' ∧
        rows M' = rows M ∧ cols M' = cols M ∧
        lookup2 (data M') i j
        = accumulate (this s) (other s) i j w <$> lookup2 (data M) i j.
Proof.
  revert s M. induction w as [|o w IH]; intros s M HM; simpl.
  - exists M. repeat split; try done. by destruct (lookup2 (data M) i j).
  - destruct (exec_lookup2 o s M i j HM) as (M1 & H1 & Hr1 & Hc1 & Hl1).
    destruct (IH _ _ H1) as (M2 & H2 & Hr2 & Hc2 & Hl2).
    exists M2. split; [done|]. split; [congruence|]. split; [congruence|].
    rewrite Hl2, Hl1, exec_this, exec_other.
    by destruct (lookup2 (data M) i j).
Qed.

(** The class invariant of [result] is kept. *)
Lemma exec_wf o s M :
  result s = Some M → wf M → ∃ M', result (exec o s) = Some M' ∧ wf M'.
Proof.
  intros HM [Hlen Hrows]. destruct o as [i j k]. simpl. rewrite HM. simpl.
  eexists. split; [done|]. split; simpl.
  - by rewrite length_alter.
  - apply Forall_alter; [done|]. intros row _ Hrow. by rewrite length_alter.
Qed.

Lemma run_ops_wf w s M :
  result s = Some M → wf M → ∃ M', result (run_ops w s) = Some M' ∧ wf M'.
Proof.
  revert s M. induction w as [|o w IH]; intros s M HM Hwf; simpl; [eauto|].
  destruct (exec_wf o s M HM Hwf) as (M1 & H1 & Hwf1). eauto.
Qed.

Lemma Matrix_new_wf r c : wf (Matrix_new r c).
Proof.
  split; simpl; [by rewrite length_replicate|].
  apply Forall_replicate. by rewrite length_replicate.
Qed.

Lemma Matrix_new_lookup2 r c i j :
  i < r → j < c → lookup2 (data (Matrix_new r c)) i j = Some zero.
Proof.
  intros Hi Hj. unfold lookup2. simpl.
  rewrite lookup_replicate_2 by done. simpl. by rewrite lookup_replicate_2.
Qed.

Lemma wf_lookup2 M i j :
  wf M → i < rows M → j < cols M → is_Some (lookup2 (data M) i j).
Proof.
  intros [Hlen Hrows] Hi Hj. unfold lookup2.
  destruct (lookup_lt_is_Some_2 (data M) i ltac:(lia)) as [row Hrow].
  rewrite Hrow. simpl. apply lookup_lt_is_Some_2.
  rewrite Forall_lookup in Hrows. rewrite (Hrows _ _ Hrow). done.
Qed.

(** Well-formed matrices with the same dimensions and the same elements
    are the same matrix. *)
Lemma matrix_ext M M' :
  wf M → wf M' → rows M = rows M' → cols M = cols M' →
  (∀ i j, i < rows M → j < cols M →
     lookup2 (data M) i j = lookup2 (data M') i j) →
  M = M'.
Proof.
  destruct M as [d r c], M' as [d' r' c'].
  intros [Hlen Hrows] [Hlen' Hrows'] Hr Hc Hel. simpl in *. subst r' c'.
  f_equal. apply list_eq. intros i.
  destruct (decide (i < r)) as [Hi|Hi].
  - destruct (lookup_lt_is_Some_2 d i ltac:(lia)) as [row Hrow].
    destruct (lookup_lt_is_Some_2 d' i ltac:(lia)) as [row' Hrow'].
    rewrite Hrow, Hrow'. f_equal. apply list_eq. intros j.
    rewrite Forall_lookup in Hrows, Hrows'.
    pose proof (Hrows _ _ Hrow) as Hl. pose proof (Hrows' _ _ Hrow') as Hl'.
    destruct (decide (j < c)) as [Hj|Hj].
    + specialize (Hel i j Hi Hj). unfold lookup2 in Hel.
      by rewrite Hrow, Hrow' in Hel.
    + by rewrite !lookup_ge_None_2 by lia.
  - by rewrite !lookup_ge_None_2 by lia.
  - done.
Qed.

Lemma randomInit_wf dis M : wf M → wf (randomInit dis M).
Proof.
  intros [Hlen Hrows]. split; simpl; [by rewrite length_imap|].
  apply Forall_lookup. intros i row. rewrite list_lookup_imap.
  destruct (data M !! i) as [row'|] eqn:Hi; [|done]. intros [= <-].
  rewrite length_imap. rewrite Forall_lookup in Hrows. by eapply Hrows.
Qed.

(** Folding over a loop in which only index [i] does anything. *)
Lemma fold_left_idle {X : Type} (h : X → T → T) (l : list X) (x : T) :
  (∀ a y, In a l → h a y = y) → fold_left (λ y a, h a y) l x = x.
Proof.
  revert x. induction l as [|a l IH]; intros x Hl; [done|].
  simpl. rewrite Hl by (by left). apply IH. intros. apply Hl. by right.
Qed.

Lemma fold_left_pointwise {X : Type} (f g : T → X → T) (l : list X) (x : T) :
  (∀ y a, f y a = g y a) → fold_left f l x = fold_left g l x.
Proof.
  intros E. revert x. induction l as [|a l IH]; intros x; [done|].
  simpl. by rewrite E, IH.
Qed.

Lemma fold_left_single (h : nat → T → T) lo n i (x : T) :
  lo ≤ i < lo + n → (∀ i' y, i' ≠ i → h i' y = y) →
  fold_left (λ y a, h a y) (seq lo n) x = h i x.
Proof.
  intros Hi Hh.
  replace n with ((i - lo) + S (lo + n - S i)) by lia.
  rewrite seq_app, fold_left_app. simpl.
  replace (lo + (i - lo)) with i by lia.
  rewrite (fold_left_idle h (seq lo (i - lo))).
  - apply fold_left_idle. intros a y Ha. apply in_seq in Ha. apply Hh. lia.
  - intros a y Ha. apply in_seq in Ha. apply Hh. lia.
Qed.

Lemma accumulate_app A B i j w1 w2 x :
  accumulate A B i j (w1 ++ w2) x
  = accumulate A B i j w2 (accumulate A B i j w1 x).
Proof. apply fold_left_app. Qed.

Lemma accumulate_for_ops A B i j lo hi (f : nat → task) x :
  accumulate A B i j (for_ops lo hi f) x
  = fold_left (λ y a, accumulate A B i j (f a) y) (seq lo (hi - lo)) x.
Proof.
  unfold for_ops. generalize (seq lo (hi - lo)) as l. intros l.
  revert x. induction l as [|a l IH]; intros x; [done|].
  simpl. by rewrite accumulate_app, IH.
Qed.

Lemma accumulate_all_work A B i j x :
  i < rows A → j < cols B →
  accumulate A B i j (all_work A B) x
  = fold_left (λ y k, add y (term A B i j k)) (seq 0 (cols A)) x.
Proof.
  intros Hi Hj. unfold all_work. rewrite accumulate_for_ops.
  rewrite (fold_left_single _ 0 _ i); [|lia|].
  - unfold row_work. rewrite accumulate_for_ops.
    rewrite (fold_left_single _ 0 _ j); [|simpl; lia|].
    + rewrite accumulate_for_ops. simpl. rewrite Nat.sub_0_r.
      apply fold_left_pointwise. intros y k. simpl.
      by rewrite decide_True by done.
    + intros j' y Hj'. rewrite accumulate_for_ops.
      apply fold_left_idle. intros k z _. simpl.
      by rewrite decide_False by (intros [_ ?]; done).
  - intros i' y Hi'. apply fold_left_idle with (h := λ o, contrib A B i j o).
    intros o z (j' & k & -> & _)%in_row_work. simpl.
    by rewrite decide_False by (intros [? _]; done).
Qed.

Lemma fold_sigma (f : nat → T) n :
  fold_left (λ y k, add y (f k)) (seq 0 n) zero = sigma n f.
Proof.
  induction n as [|n IH]; [done|].
  rewrite seq_S, fold_left_app. simpl. by rewrite IH.
Qed.

(** Every element of what the serial loops leave in [result]. *)
Lemma serial_result_elements A B :
  ∃ M, serial_result A B = Some M ∧
       rows M = rows A ∧ cols M = cols B ∧ wf M ∧
       ∀ i j, i < rows A → j < cols B →
         lookup2 (data M) i j = Some (sigma (cols A) (term A B i j)).
Proof.
  destruct (serial_result_Some A B) as (M & HM & Hr & Hc).
  exists M. split; [done|]. split; [done|]. split; [done|]. split.
  - destruct (run_ops_wf (all_work A B) (body_state A B) _ eq_refl
                (Matrix_new_wf _ _)) as (M' & HM' & Hwf).
    unfold serial_result in HM. congruence.
  - intros i j Hi Hj.
    destruct (run_ops_lookup2 (all_work A B) (body_state A B)
                (Matrix_new (rows A) (cols B)) i j eq_refl)
      as (M' & HM' & _ & _ & Hl).
    unfold serial_result in HM. rewrite HM in HM'. injection HM' as <-.
    rewrite Hl, Matrix_new_lookup2 by done.
    change (this (body_state A B)) with A.
    change (other (body_state A B)) with B.
    simpl. by rewrite accumulate_all_work, fold_sigma.
Qed.
End Elements.

(** * Order of the statements, and bounds of the indices *)

Section Order.
Context {T : Type} `{Numeric T}.
Implicit Types (s : @state T) (A B M : Matrix T).

Lemma flat_map_uniform_length {X Y : Type} (f : X → list Y) (l : list X) m :
  (∀ x, length (f x) = m) → length (flat_map f l) = length l * m.
Proof.
  intros Hf. induction l as [|x l IH]; [done|].
  simpl. rewrite length_app, Hf, IH. done.
Qed.

Lemma flat_map_uniform_lookup {Y : Type} (f : nat → list Y) m n :
  (∀ x, length (f x) = m) →
  ∀ lo i r, i < n → r < m →
    flat_map f (seq lo n) !! (i * m + r) = f (lo + i) !! r.
Proof.
  intros Hf. induction n as [|n IH]; intros lo i r Hi Hr; [lia|].
  cbn [seq flat_map]. destruct i as [|i].
  - rewrite lookup_app_l by (rewrite Hf; lia). by rewrite Nat.add_0_r.
  - rewrite lookup_app_r by (rewrite Hf; lia). rewrite Hf.
    replace (S i * m + r - m) with (i * m + r) by lia.
    rewrite IH by lia. f_equal. f_equal. lia.
Qed.

Lemma row_work_length s i :
  length (row_work s i) = cols (other s) * cols (this s).
Proof.
  unfold row_work, for_ops. rewrite !Nat.sub_0_r.
  rewrite (flat_map_uniform_length _ _ (cols (this s))).
  - by rewrite length_seq.
  - intros j. rewrite (flat_map_uniform_length _ _ 1) by done.
    rewrite length_seq. lia.
Qed.

Lemma row_work_lookup s i j k :
  j < cols (other s) → k < cols (this s) →
  row_work s i !! (j * cols (this s) + k) = Some (Acc i j k).
Proof.
  intros Hj Hk.
  assert (∀ j', length (flat_map (λ k', [Acc i j' k']) (seq 0 (cols (this s))))
                = cols (this s)) as Hlen.
  { intros j'. rewrite (flat_map_uniform_length _ _ 1) by done.
    rewrite length_seq. lia. }
  pose proof (flat_map_uniform_lookup _ _ (cols (other s)) Hlen 0 j k Hj Hk) as E.
  pose proof (flat_map_uniform_lookup (λ k', [Acc i j k']) 1 (cols (this s))
                ltac:(done) 0 k 0 Hk ltac:(lia)) as E'.
  rewrite Nat.mul_1_r, Nat.add_0_r in E'.
  unfold row_work, for_ops. rewrite !Nat.sub_0_r.
  etrans; [exact E|]. etrans; [exact E'|]. done.
Qed.

(** The serial multiplier executes [rows * other.cols * cols]
    statements; the one for [(i, j, k)] is number
    [(i * other.cols + j) * cols + k]: rows first, then columns, then the
    contraction index. *)
Lemma all_work_length A B :
  length (all_work A B) = rows A * cols B * cols A.
Proof.
  unfold all_work, for_ops. rewrite Nat.sub_0_r.
  rewrite (flat_map_uniform_length _ _ (cols B * cols A)).
  - rewrite length_seq. lia.
  - intros i. apply row_work_length.
Qed.

Lemma all_work_lookup A B i j k :
  i < rows A → j < cols B → k < cols A →
  all_work A B !! ((i * cols B + j) * cols A + k) = Some (Acc i j k).
Proof.
  intros Hi Hj Hk.
  assert (j * cols A + k < cols B * cols A) as Hjk by nia.
  pose proof (flat_map_uniform_lookup (row_work (body_state A B))
                (cols B * cols A) (rows A)
                (row_work_length (body_state A B)) 0 i _ Hi Hjk) as E.
  replace ((i * cols B + j) * cols A + k)
    with (i * (cols B * cols A) + (j * cols A + k)) by lia.
  unfold all_work, for_ops. rewrite Nat.sub_0_r.
  etrans; [exact E|]. by apply (row_work_lookup (body_state A B)).
Qed.

Lemma in_all_work A B o :
  In o (all_work A B) →
  ∃ i j k, o = Acc i j k ∧ i < rows A ∧ j < cols B ∧ k < cols A.
Proof.
  unfold all_work. rewrite in_for_ops.
  intros (i & Hi & (j & k & -> & Hj & Hk)%in_row_work).
  exists i, j, k. simpl in *. repeat split; try done; lia.
Qed.

(** No statement indexes outside a vector. *)
Lemma serial_work_in_bounds A B i j k :
  wf A → wf B → cols A = rows B →
  In (Acc i j k) (all_work A B) →
  is_Some (lookup2 (data A) i k) ∧ is_Some (lookup2 (data B) k j) ∧
  is_Some (lookup2 (data (Matrix_new (rows A) (cols B))) i j).
Proof.
  intros HA HB Hd (i' & j' & k' & [= -> -> ->] & Hi & Hj & Hk)%in_all_work.
  split; [|split].
  - by apply wf_lookup2.
  - apply wf_lookup2; [done|lia|done].
  - rewrite Matrix_new_lookup2 by done. done.
Qed.
Lemma all_work_empty A B : cols A = 0 → all_work A B = [].
Proof.
  intros HK. destruct (all_work A B) as [|o w] eqn:E; [done|].
  pose proof (all_work_length A B) as Hlen.
  rewrite E, HK, Nat.mul_0_r in Hlen. done.
Qed.
End Order.

Lemma partitions_bounded R P t p :
  1 ≤ P → partitions R P !! t = Some p → fst p + snd p ≤ R.
Proof.
  intros HP [Ht ->]%partitions_lookup. simpl.
  rewrite <- start_of_S.
  etrans; [apply (start_of_mono _ _ (S t) P); lia|].
  by rewrite start_of_total.
Qed.

Lemma empty_partitions_count R P :
  R < P → length (filter (λ p, snd p = 0) (partitions R P)) = P - R.
Proof.
  intros HRP. rewrite partitions_map.
  rewrite Nat.div_small, Nat.mod_small by done.
  assert (∀ n t,
    length (filter (λ p : nat * nat, snd p = 0)
              (map (λ u, (start_of 0 R u, size_of 0 R u)) (seq t n)))
    = (t + n) `max` R - t `max` R) as Hgen.
  { induction n as [|n IH]; intros t; cbn [seq map].
    - rewrite Nat.add_0_r. simpl. lia.
    - unfold size_of at 1. simpl. destruct (Nat.ltb_spec t R).
      + rewrite filter_cons_False by (simpl; lia). rewrite IH. lia.
      + rewrite filter_cons_True by done. simpl. rewrite IH. lia. }
  rewrite Hgen. lia.
Qed.

(** * Interleavings

    The schedules of [run_schedule] cover every way the units can be
    interleaved statement by statement: [step] lets any unit that has
    a statement left execute it.  Executions cannot get stuck before every
    unit has finished, each step uses up one pending statement, and every
    execution that reaches the joins ends in the same state. *)

Section Interleavings.
Context {T : Type} `{Numeric T}.
Implicit Types (s : @state T) (o : op) (w : task) (us : list task).

Lemma step_step_unit s s' : step s s' → ∃ t, step_unit t s = s'.
Proof.
  intros [s0 t o rest Ht]. exists t. unfold step_unit. by rewrite Ht.
Qed.

Lemma steps_schedule s s' : rtc step s s' → ∃ sched, run_schedule sched s = s'.
Proof.
  induction 1 as [s|s1 s2 s3 H12 _ [sched IH]].
  - by exists [].
  - destruct (step_step_unit _ _ H12) as [t Ht].
    exists (t :: sched). simpl. by rewrite Ht.
Qed.

Lemma step_pending s s' : step s s' → S (pending s') = pending s.
Proof.
  intros [s0 t o rest Ht]. unfold pending. rewrite exec_units. simpl.
  pose proof (lookup_lt_Some _ _ _ Ht) as Hlt.
  rewrite insert_take_drop by done.
  rewrite <- (take_drop_middle _ _ _ Ht) at 3.
  rewrite !concat_app, !length_app. simpl. rewrite !length_app. simpl. lia.
Qed.

Lemma step_progress s : pending s ≠ 0 → ∃ s', step s s'.
Proof.
  unfold pending. intros Hp.
  assert (∃ t o rest, units s !! t = Some (o :: rest)) as (t & o & rest & Ht).
  { induction (units s) as [|w us IH]; [done|].
    destruct w as [|o rest].
    - destruct (IH Hp) as (t & o & rest & Ht). by exists (S t), o, rest.
    - by exists 0, o, rest. }
  eexists. by econstructor.
Qed.

Lemma drain_joined s : pending s = 0 → drain s = s.
Proof.
  unfold pending, drain. intros Hp.
  assert (concat (units s) = [] ∧ map (λ _, []) (units s) = units s) as [-> ->].
  { induction (units s) as [|w us IH]; [done|].
    simpl in Hp. rewrite length_app in Hp.
    destruct w; [|simpl in Hp; lia].
    destruct (IH Hp) as [E1 E2]. simpl. by rewrite E1, E2. }
  by destruct s.
Qed.

Lemma interleavings_agree s s' :
  separated (units s) → rtc step s s' → pending s' = 0 → s' = drain s.
Proof.
  intros Hsep [sched <-]%steps_schedule Hp.
  rewrite <- (run_schedule_drain sched s Hsep). by rewrite drain_joined.
Qed.

(** The operands are only read. *)
Lemma step_unit_operands t s :
  this (step_unit t s) = this s ∧ other (step_unit t s) = other s.
Proof.
  unfold step_unit. destruct (units s !! t) as [[|o rest]|]; try done.
  by rewrite exec_this, exec_other.
Qed.

Lemma run_schedule_operands sched s :
  this (run_schedule sched s) = this s ∧ other (run_schedule sched s) = other s.
Proof.
  revert s. induction sched as [|t sched IH]; intros s; [done|].
  change (run_schedule (t :: sched) s) with (run_schedule sched (step_unit t s)).
  destruct (IH (step_unit t s)) as [-> ->]. apply step_unit_operands.
Qed.

Lemma wait_all_operands s :
  this (wait_all s) = this s ∧ other (wait_all s) = other s.
Proof.
  rewrite wait_all_drain. unfold drain. simpl.
  by rewrite run_ops_this, run_ops_other.
Qed.

Lemma step_unit_units_length t s :
  length (units (step_unit t s)) = length (units s).
Proof.
  unfold step_unit. destruct (units s !! t) as [[|o rest]|]; try done.
  rewrite exec_units. simpl. by rewrite length_insert.
Qed.

Lemma run_schedule_units_length sched s :
  length (units (run_schedule sched s)) = length (units s).
Proof.
  revert s. induction sched as [|t sched IH]; intros s; [done|].
  change (run_schedule (t :: sched) s) with (run_schedule sched (step_unit t s)).
  by rewrite IH, step_unit_units_length.
Qed.

(** After the joins every launched unit has finished. *)
Lemma joined_units sched us s :
  units (wait_all (run_schedule sched (set_units us s)))
  = replicate (length us) [].
Proof.
  rewrite wait_all_drain. unfold drain. simpl.
  pose proof (run_schedule_units_length sched (set_units us s)) as Hlen.
  simpl in Hlen. rewrite <- Hlen.
  generalize (units (run_schedule sched (set_units us s))) as l.
  intros l. induction l as [|w l IH]; [done|]. simpl. by rewrite IH.
Qed.

(** [result] stays constructed: no multiplier returns a matrix that was
    never constructed. *)
Lemma step_unit_result t s M :
  result s = Some M → ∃ M', result (step_unit t s) = Some M'.
Proof.
  intros HM. unfold step_unit.
  destruct (units s !! t) as [[|o rest]|]; eauto.
  destruct o. simpl. rewrite HM. simpl. eauto.
Qed.

Lemma run_schedule_result sched s M :
  result s = Some M → ∃ M', result (run_schedule sched s) = Some M'.
Proof.
  revert s M. induction sched as [|t sched IH]; intros s M HM; [eauto|].
  change (run_schedule (t :: sched) s) with (run_schedule sched (step_unit t s)).
  destruct (step_unit_result t s M HM) as [M1 H1]. eauto.
Qed.

Lemma joined_result sched us s M :
  result s = Some M →
  ret (return_result (wait_all (run_schedule sched (set_units us s))))
  ≠ Undefined no_result.
Proof.
  intros HM. rewrite wait_all_drain. unfold drain, return_result. simpl.
  destruct (run_schedule_result sched (set_units us s) M HM) as [M1 H1].
  destruct (run_ops_result
              (concat (units (run_schedule sched (set_units us s)))) _ _ H1)
    as (M2 & -> & _).
  done.
Qed.

Lemma result_always_constructed P sched_async sched_pool (A B : Matrix T) :
  ret (multiply_serial A B) ≠ Undefined no_result ∧
  ret (multiply_async sched_async A B) ≠ Undefined no_result ∧
  ret (multiply_thread_pool P sched_pool A B) ≠ Undefined no_result.
Proof.
  rewrite multiply_serial_unfold, multiply_async_unfold,
    multiply_thread_pool_unfold.
  destruct (negb (cols A =? rows B)); [done|].
  split; [|split].
  - unfold return_result.
    destruct (run_ops_result (all_work A B) (body_state A B) _ eq_refl)
      as (M & -> & _).
    done.
  - by eapply joined_result.
  - destruct (P =? 0); [done|]. by eapply joined_result.
Qed.

Lemma return_result_final s : final (return_result s) = s.
Proof. unfold return_result. by destruct (result s). Qed.
End Interleavings.

(** * Arithmetic of [double]

    The facts about IEEE 754 binary64 the identity check rests on, from
    the specification of the primitive operations: [x * 1] is [x];
    a finite [x] times [0] is a zero; zeros add up to a zero; a zero plus
    [x] is [==] to [x]; and adding a zero does not change what a value is
    [==] to. *)

Lemma one_SF : Prim2SF 1%float = S754_finite false 4503599627370496 (-52).
Proof. vm_compute. reflexivity. Qed.

Lemma zero_SF : Prim2SF 0%float = S754_zero false.
Proof. vm_compute. reflexivity. Qed.

Lemma infinity_SF : Prim2SF infinity = S754_infinity false.
Proof. vm_compute. reflexivity. Qed.

Lemma digits2_shift m n :
  Z.pos (digits2_pos (Pos.iter xO m n)) = (Z.pos (digits2_pos m) + Z.pos n)%Z.
Proof.
  induction n as [|n IH] using Pos.peano_ind.
  - simpl. lia.
  - rewrite Pos.iter_succ. cbn [digits2_pos]. lia.
Qed.

(** Multiplying a mantissa by [2^52] and shifting it back by 52 bits is
    exact, so the product with [1 = 2^52 * 2^-52] rounds to the factor. *)
Lemma mul_one_finite s m e :
  valid_binary (S754_finite s m e) = true →
  SF64mul (S754_finite s m e) (S754_finite false 4503599627370496 (-52))
  = S754_finite s m e.
Proof.
  unfold SpecFloat.valid_binary, bounded, canonical_mantissa.
  intros [Hcan Hbnd]%andb_prop.
  apply Z.eqb_eq in Hcan.
  unfold SF64mul, SFmul.
  rewrite Pos.mul_comm.
  change (4503599627370496 * m)%positive with (Pos.iter xO m 52).
  assert (shr_fexp prec emax (Z.pos (Pos.iter xO m 52)) (e + -52) loc_Exact
          = ({| shr_m := Z.pos m; shr_r := false; shr_s := false |}, e)) as E1.
  { unfold shr_fexp. cbn [Zdigits2 shr_record_of_loc].
    rewrite digits2_shift.
    replace (Z.pos (digits2_pos m) + 52 + (e + -52))%Z
      with (Z.pos (digits2_pos m) + e)%Z by lia.
    rewrite Hcan. replace (e - (e + -52))%Z with 52%Z by lia.
    unfold shr. cbn [Pos.iter iter_pos shr_1 orb]. f_equal. lia. }
  assert (shr_fexp prec emax (Z.pos m) e loc_Exact
          = ({| shr_m := Z.pos m; shr_r := false; shr_s := false |}, e)) as E2.
  { unfold shr_fexp. cbn [Zdigits2 shr_record_of_loc].
    rewrite Hcan, Z.sub_diag. reflexivity. }
  unfold binary_round_aux. rewrite E1.
  cbn [shr_m loc_of_shr_record round_nearest_even]. rewrite E2.
  cbn [shr_m]. rewrite Hbnd, xorb_false_r. reflexivity.
Qed.

Lemma SFeqb_refl X : X ≠ S754_nan → SFeqb X X = true.
Proof.
  unfold SFeqb. destruct X as [s|s| |s m e]; intros HX; try easy.
  - now destruct s.
  - simpl. rewrite Z.compare_refl, Pos.compare_cont_refl. now destruct s.
Qed.

Lemma double_zero_SF x : double_zero x ↔ ∃ s, Prim2SF x = S754_zero s.
Proof.
  unfold double_zero, PrimFloat.is_zero. rewrite FloatAxioms.eqb_spec.
  change (Prim2SF PrimFloat.zero) with (S754_zero false).
  destruct (Prim2SF x) as [s|s| |s m e]; unfold SFeqb; simpl; split;
    try (intros [s' Hs']; discriminate); try discriminate; eauto.
  - now destruct s.
  - now destruct s.
Qed.

Lemma double_finite_SF x :
  double_finite x →
  (∃ s, Prim2SF x = S754_zero s) ∨ (∃ s m e, Prim2SF x = S754_finite s m e).
Proof.
  unfold double_finite, is_finite, is_nan, is_infinity.
  rewrite !FloatAxioms.eqb_spec, FloatAxioms.abs_spec, infinity_SF.
  destruct (Prim2SF x) as [s|s| |s m e]; try destruct s; unfold SFeqb; simpl;
    intros Hx; try discriminate; eauto.
Qed.

Lemma double_mul_one x : (x * 1)%float = x.
Proof.
  apply FloatAxioms.Prim2SF_inj. rewrite FloatAxioms.mul_spec, one_SF.
  pose proof (FloatAxioms.Prim2SF_valid x) as Hv.
  destruct (Prim2SF x) as [s|s| |s m e].
  - simpl. now rewrite xorb_false_r.
  - simpl. now rewrite xorb_false_r.
  - reflexivity.
  - now apply mul_one_finite.
Qed.

Lemma double_mul_zero x : double_finite x → double_zero (x * 0)%float.
Proof.
  intros Hx. apply double_zero_SF. rewrite FloatAxioms.mul_spec, zero_SF.
  destruct (double_finite_SF x Hx) as [[s ->]|(s & m & e & ->)]; simpl; eauto.
Qed.

Lemma double_add_zeros a b :
  double_zero a → double_zero b → double_zero (a + b)%float.
Proof.
  intros [sa Ha]%double_zero_SF [sb Hb]%double_zero_SF.
  apply double_zero_SF. rewrite FloatAxioms.add_spec, Ha, Hb.
  destruct sa, sb; simpl; eauto.
Qed.

Lemma double_add_zero_l a x :
  double_zero a → double_finite x → double_close (a + x * 1)%float x.
Proof.
  intros [sa Ha]%double_zero_SF Hx. unfold double_close.
  rewrite double_mul_one, FloatAxioms.eqb_spec, FloatAxioms.add_spec, Ha.
  destruct (double_finite_SF x Hx) as [[s ->]|(s & m & e & ->)].
  - now destruct sa, s.
  - simpl. now apply SFeqb_refl.
Qed.

Lemma double_add_zero_r a b x :
  double_close a x → double_zero b → double_close (a + b)%float x.
Proof.
  unfold double_close. intros Hax [sb Hb]%double_zero_SF.
  rewrite FloatAxioms.eqb_spec in *. rewrite FloatAxioms.add_spec, Hb.
  destruct (Prim2SF a) as [sa|sa| |sa ma ea]; try easy.
  destruct (Prim2SF x) as [sx|sx| |sx mx ex]; try easy;
    destruct sa, sb; try easy.
Qed.

(** * Multiplying by the identity matrix *)

Section Identity.
Context {T : Type} `{Numeric T}.
Implicit Types (A B M : Matrix T).

(** The element [T(1)]. *)
Variable one : T.

Lemma identity_wf K : wf (identity one K).
Proof.
  split; simpl; [by rewrite length_map, length_seq|].
  apply Forall_forall. intros row [i [<- _]]%list_elem_of_In%in_map_iff.
  by rewrite length_map, length_seq.
Qed.

Lemma identity_elem K k j :
  k < K → j < K →
  elem (data (identity one K)) k j = if decide (k = j) then one else zero.
Proof.
  intros Hk Hj. unfold elem, lookup2. simpl.
  change (map ?f ?l) with (f <$> l). rewrite list_lookup_fmap.
  rewrite lookup_seq_lt by done. simpl.
  change (map ?f ?l) with (f <$> l). rewrite list_lookup_fmap.
  rewrite lookup_seq_lt by done. done.
Qed.

(** The facts about the arithmetic of [T] the identity check rests on.
    [usable] singles out the elements a matrix may hold, [is_zero] the
    values that count as zero, [close] is equality within the tolerance.
    For exact number types these are [True], [= zero] and [=]; for
    [double] they are "finite", "+0 or -0" and [==]. *)
Variables (usable is_zero : T → Prop) (close : T → T → Prop).
Hypothesis zero_is_zero : is_zero zero.
Hypothesis mul_zero : ∀ x, usable x → is_zero (mul x zero).
Hypothesis add_zeros : ∀ a b, is_zero a → is_zero b → is_zero (add a b).
Hypothesis mul_one : ∀ a x, is_zero a → usable x → close (add a (mul x one)) x.
Hypothesis add_zero : ∀ a b x, close a x → is_zero b → close (add a b) x.

Lemma usable_elem A i k :
  usable_matrix usable A → wf A → i < rows A → k < cols A →
  usable (elem (data A) i k).
Proof.
  intros HA Hwf Hi Hk. destruct (wf_lookup2 A i k Hwf Hi Hk) as [x Hx].
  unfold elem. rewrite Hx. simpl. unfold lookup2 in Hx.
  destruct (data A !! i) as [row|] eqn:Hrow; [|done]. simpl in Hx.
  unfold usable_matrix in HA. rewrite Forall_lookup in HA.
  specialize (HA _ _ Hrow). rewrite Forall_lookup in HA. by eapply HA.
Qed.

Section Row.
Variables (A : Matrix T) (i j : nat).
Hypothesis A_usable : usable_matrix usable A.
Hypothesis A_wf : wf A.
Hypothesis i_row : i < rows A.
Hypothesis j_col : j < cols A.

Lemma off_diagonal_term k :
  k < cols A → k ≠ j → is_zero (term A (identity one (cols A)) i j k).
Proof using mul_zero A_usable A_wf i_row j_col.
  intros Hk Hkj. unfold term. rewrite identity_elem by done.
  rewrite decide_False by done. apply mul_zero. by apply usable_elem.
Qed.

Lemma before_diagonal l y :
  (∀ k, In k l → k < cols A ∧ k ≠ j) → is_zero y →
  is_zero
    (fold_left (λ y k, add y (term A (identity one (cols A)) i j k)) l y).
Proof using mul_zero add_zeros A_usable A_wf i_row j_col.
  revert y. induction l as [|k l IH]; intros y Hl Hy; [done|].
  simpl. apply IH; [intros; apply Hl; by right|].
  apply add_zeros; [done|]. by apply off_diagonal_term; apply Hl; left.
Qed.

Lemma after_diagonal l y x :
  (∀ k, In k l → k < cols A ∧ k ≠ j) → close y x →
  close
    (fold_left (λ y k, add y (term A (identity one (cols A)) i j k)) l y) x.
Proof using mul_zero add_zero A_usable A_wf i_row j_col.
  revert y. induction l as [|k l IH]; intros y Hl Hy; [done|].
  simpl. apply IH; [intros; apply Hl; by right|].
  apply add_zero; [done|]. by apply off_diagonal_term; apply Hl; left.
Qed.

Lemma identity_sum :
  close (sigma (cols A) (term A (identity one (cols A)) i j))
    (elem (data A) i j).
Proof using All.
  rewrite <- fold_sigma.
  replace (cols A) with (j + S (cols A - S j)) at 1 by lia.
  rewrite seq_app, fold_left_app. simpl.
  apply after_diagonal.
  - intros k Hk%in_seq. lia.
  - unfold term at 2. rewrite identity_elem by done.
    rewrite decide_True by done. apply mul_one.
    + apply before_diagonal; [|done]. intros k Hk%in_seq. lia.
    + by apply usable_elem.
Qed.
End Row.

(** For operands whose elements are usable, the three multipliers return
    one and the same matrix for [A] times the identity, under every
    schedule, and each of its elements is [close] to the element of [A] at
    the same place. *)
Lemma identity_right_laws P sched_async sched_pool A :
  wf A → usable_matrix usable A → 1 ≤ P →
  ∃ M, ret (multiply_serial A (identity one (cols A))) = Returned M ∧
       ret (multiply_async sched_async A (identity one (cols A))) = Returned M ∧
       ret (multiply_thread_pool P sched_pool A (identity one (cols A)))
         = Returned M ∧
       wf M ∧ rows M = rows A ∧ cols M = cols A ∧
       ∀ i j, i < rows A → j < cols A →
         ∃ x a, lookup2 (data M) i j = Some x
                ∧ lookup2 (data A) i j = Some a ∧ close x a.
Proof using All.
  intros Hwf HA HP.
  assert (cols A = rows (identity one (cols A))) as Hd by done.
  destruct (serial_result_elements A (identity one (cols A)))
    as (M & HM & Hr & Hc & HwfM & Hel).
  destruct (multiply_serial_ret A _ Hd) as (Ms & HMs & Hs).
  destruct (multiply_async_ret sched_async A _ Hd) as (Ma & HMa & Ha).
  destruct (multiply_thread_pool_ret P sched_pool A _ Hd HP) as (Mp & HMp & Hp).
  exists M. split; [congruence|]. split; [congruence|]. split; [congruence|].
  do 3 (split; [done|]).
  intros i j Hi Hj.
  destruct (wf_lookup2 A i j Hwf Hi Hj) as [a Ha'].
  eexists _, a. split; [by apply Hel|]. split; [done|].
  pose proof (identity_sum A i j HA Hwf Hi Hj) as Hclose.
  unfold elem in Hclose. by rewrite Ha' in Hclose.
Qed.
End Identity.

(** With an exact element type the product with the identity is [A]
    itself. *)
Lemma identity_right_exact P sched_async sched_pool (A : Matrix Z) :
  wf A → 1 ≤ P →
  ret (multiply_serial A (identity 1%Z (cols A))) = Returned A ∧
  ret (multiply_async sched_async A (identity 1%Z (cols A))) = Returned A ∧
  ret (multiply_thread_pool P sched_pool A (identity 1%Z (cols A)))
  = Returned A.
Proof.
  intros Hwf HP.
  destruct (@identity_right_laws Z Z_Numeric 1%Z (λ _, True) (λ x, x = 0%Z) eq
              eq_refl
              ltac:(intros x _; apply Z.mul_0_r)
              ltac:(by intros a b -> ->)
              ltac:(intros a x -> _; apply Z.mul_1_r)
              ltac:(intros a b x -> ->; apply Z.add_0_r)
              P sched_async sched_pool A Hwf)
    as (M & Hs & Ha & Hp & HwfM & Hr & Hc & Hel); [|done|].
  { apply Forall_forall. intros row _. by apply Forall_forall. }
  assert (M = A) as ->; [|done].
  apply matrix_ext; try done.
  intros i j Hi Hj. rewrite Hr in Hi. rewrite Hc in Hj.
  by destruct (Hel i j Hi Hj) as (x & a & -> & -> & ->).
Qed.

(** * The properties of the specification *)

(** C1.  For operands [A] ([R]×[K]) and [B] ([K]×[C]) with
    [A.cols() == B.rows()], [multiply_serial] returns a new matrix of
    shape [R]×[C] whose element [(i, j)] is the sum over [k] from [0] to
    [K-1] of [A[i][k] * B[k][j]].  It gets there by executing the
    [R * C * K] accumulation statements of the three nested loops, the
    statement for [(i, j, k)] being number [(i * C + j) * K + k]: rows
    outermost, then columns, then the contraction index. *)
Theorem multiply_serial_correct {T : Type} `{Numeric T} (A B : Matrix T) :
  wf A → wf B → cols A = rows B →
  ∃ M, ret (multiply_serial A B) = Returned M ∧
       wf M ∧ rows M = rows A ∧ cols M = cols B ∧
       (∀ i j, i < rows A → j < cols B →
          lookup2 (data M) i j
          = Some (sigma (cols A)
                    (λ k, mul (elem (data A) i k) (elem (data B) k j)))) ∧
       final (multiply_serial A B) = run_ops (all_work A B) (body_state A B) ∧
       length (all_work A B) = rows A * cols B * cols A ∧
       (∀ i j k, i < rows A → j < cols B → k < cols A →
          all_work A B !! ((i * cols B + j) * cols A + k) = Some (Acc i j k)).
Proof.
  intros _ _ Hd.
  destruct (serial_result_elements A B) as (M & HM & Hr & Hc & Hwf & Hel).
  destruct (multiply_serial_ret A B Hd) as (M' & HM' & Hret).
  assert (M' = M) as -> by congruence.
  exists M. do 5 (split; [done|]). split; [|split].
  - by rewrite multiply_serial_unfold, guard_passes, return_result_final.
  - apply all_work_length.
  - apply all_work_lookup.
Qed.

Lemma multiply_serial_correct_witness :
  wf A22 ∧ wf B22 ∧ cols A22 = rows B22 ∧
  ∃ M, ret (multiply_serial A22 B22) = Returned M
       ∧ lookup2 (data M) 1 0 = Some 43%Z.
Proof.
  assert (wf A22) as HA by wf_by_computation.
  assert (wf B22) as HB by wf_by_computation.
  do 3 (split; [done|]).
  destruct (multiply_serial_correct A22 B22 HA HB eq_refl)
    as (M & HM & _ & _ & _ & Hel & _).
  exists M. split; [exact HM|]. rewrite (Hel 1 0) by (simpl; lia). reflexivity.
Defined.

(** C2.  For operands that satisfy the dimension precondition, the serial
    and the task-based multiplier return the same matrix, and so does the
    thread-pool multiplier for every positive hardware concurrency,
    whatever the order in which the scheduler lets the units of execution
    run: every element is accumulated in the same order by all three, so
    the results are identical and hence equal within any tolerance.  When
    the hardware concurrency is reported as zero the thread-pool multiplier
    has no result: it divides by zero. *)
Theorem multipliers_agree {T : Type} `{Numeric T}
    (P : nat) (sched_async sched_pool : list nat) (A B : Matrix T) :
  wf A → wf B → cols A = rows B →
  ∃ M, ret (multiply_serial A B) = Returned M ∧
       ret (multiply_async sched_async A B) = Returned M ∧
       ret (multiply_thread_pool P sched_pool A B)
       = if P =? 0 then Undefined division_by_zero else Returned M.
Proof.
  intros _ _ Hd.
  destruct (multiply_serial_ret A B Hd) as (M & HM & Hs).
  destruct (multiply_async_ret sched_async A B Hd) as (Ma & HMa & Ha).
  exists M. split; [done|]. split; [congruence|].
  destruct (Nat.eqb_spec P 0) as [->|HP].
  - by rewrite multiply_thread_pool_unfold, guard_passes.
  - destruct (multiply_thread_pool_ret P sched_pool A B Hd ltac:(lia))
      as (Mp & HMp & Hp).
    congruence.
Qed.

Lemma multipliers_agree_witness :
  wf B11 ∧ cols B11 = rows B11 ∧
  ∃ M, ret (multiply_serial B11 B11) = Returned M ∧
       ret (multiply_async [0; 1; 0] B11 B11) = Returned M ∧
       ret (multiply_thread_pool 0 [0; 1; 0] B11 B11)
       = Undefined division_by_zero.
Proof.
  assert (wf B11) as HB by wf_by_computation.
  do 2 (split; [done|]).
  exact (multipliers_agree 0 [0; 1; 0] [0; 1; 0] B11 B11 HB HB eq_refl).
Defined.

(** C3.  For [R] rows and [P] ≥ 1 threads the partitioning loop of the
    thread-pool multiplier hands out exactly [P] ranges.  Laid end to end
    in thread order they are the rows [0, 1, ..., R-1]: each range starts
    where the one before it ends, every row below [R] lies in a range and
    no other row does, and ranges of different threads share no row.
    Thread [t] gets [R / P + 1] rows when [t < R mod P] and [R / P] rows
    otherwise, so that two sizes differ by at most one. *)
Theorem partition_coverage (R P : nat) :
  1 ≤ P →
  length (partitions R P) = P ∧
  concat (map range_rows (partitions R P)) = seq 0 R ∧
  (∀ t p, partitions R P !! t = Some p →
     snd p = R / P + (if t <? R mod P then 1 else 0)) ∧
  (∀ p, partitions R P !! 0 = Some p → fst p = 0) ∧
  (∀ t p p', partitions R P !! t = Some p → partitions R P !! S t = Some p' →
     fst p' = fst p + snd p) ∧
  (∀ r, r < R ↔ ∃ t p, partitions R P !! t = Some p ∧ In r (range_rows p)) ∧
  (∀ t u p p' r, t ≠ u →
     partitions R P !! t = Some p → partitions R P !! u = Some p' →
     In r (range_rows p) → ¬ In r (range_rows p')) ∧
  (∀ p p', In p (partitions R P) → In p' (partitions R P) →
     snd p ≤ snd p' + 1).
Proof.
  intros HP.
  split; [apply partitions_length|].
  split; [by apply partitions_concat|].
  split; [by intros t p [_ ->]%partitions_lookup|].
  split; [by intros p [_ ->]%partitions_lookup|].
  split.
  { intros t p p' [_ ->]%partitions_lookup [_ ->]%partitions_lookup.
    apply start_of_S. }
  split.
  { intros r. transitivity (In r (seq 0 R)); [rewrite in_seq; lia|].
    rewrite <- (partitions_concat R P HP), in_concat. split.
    - intros (l & (p & <- & Hp)%in_map_iff & Hr).
      apply list_elem_of_In, list_elem_of_lookup in Hp as [t Ht]. eauto.
    - intros (t & p & Ht & Hr). exists (range_rows p). split; [|done].
      apply in_map, list_elem_of_In, list_elem_of_lookup. eauto. }
  split.
  { intros t u p p' r Hne Ht Hu Hr Hr'.
    apply list_elem_of_In in Hr, Hr'.
    destruct (decide (t < u)).
    - pose proof (partitions_ordered R P t u p p' r r ltac:(done) Ht Hu Hr Hr').
      lia.
    - pose proof (partitions_ordered R P u t p' p r r ltac:(lia) Hu Ht Hr' Hr).
      lia. }
  intros p p' Hp Hp'.
  apply list_elem_of_In, list_elem_of_lookup in Hp as [t Ht], Hp' as [u Hu].
  apply partitions_lookup in Ht as [_ ->], Hu as [_ ->]. simpl.
  unfold size_of. destruct (t <? R mod P), (u <? R mod P); lia.
Qed.

Lemma partition_coverage_witness :
  1 ≤ 4 ∧ length (partitions 10 4) = 4
  ∧ concat (map range_rows (partitions 10 4)) = seq 0 10.
Proof.
  split; [lia|].
  destruct (partition_coverage 10 4 ltac:(lia)) as (Hlen & Hcat & _).
  exact (conj Hlen Hcat).
Defined.

(** C4.  When [A.cols() ≠ B.rows()] each of the three multipliers throws
    the dimension error ([std::invalid_argument]) before it constructs
    the result matrix and before it launches any unit of execution, for
    every schedule and every hardware concurrency: nothing is computed or
    written. *)
Theorem dimension_mismatch_rejected {T : Type} `{Numeric T}
    (P : nat) (sched_async sched_pool : list nat) (A B : Matrix T) :
  cols A ≠ rows B →
  rejected A B (multiply_serial A B) ∧
  rejected A B (multiply_async sched_async A B) ∧
  rejected A B (multiply_thread_pool P sched_pool A B).
Proof.
  intros Hd. unfold rejected.
  rewrite multiply_serial_unfold, multiply_async_unfold,
    multiply_thread_pool_unfold, guard_fails by done.
  by repeat split.
Qed.

Lemma dimension_mismatch_rejected_witness :
  cols A12 ≠ rows B11 ∧
  rejected A12 B11 (multiply_serial A12 B11) ∧
  rejected A12 B11 (multiply_async [0; 1] A12 B11) ∧
  rejected A12 B11 (multiply_thread_pool 0 [0; 1] A12 B11).
Proof.
  assert (cols A12 ≠ rows B11) as Hd by (simpl; lia).
  split; [exact Hd|].
  exact (dimension_mismatch_rejected 0 [0; 1] [0; 1] A12 B11 Hd).
Defined.

(** C5.  The thread-pool multiplier uses the value of
    [std::thread::hardware_concurrency()] as it is.  When that value is
    zero it divides [rows] by zero, for operands of any compatible
    dimensions: there is no fallback to one thread. *)
Theorem thread_pool_zero_concurrency {T : Type} `{Numeric T}
    (sched : list nat) (A B : Matrix T) :
  cols A = rows B →
  ret (multiply_thread_pool 0 sched A B) = Undefined division_by_zero.
Proof.
  intros Hd. by rewrite multiply_thread_pool_unfold, guard_passes.
Qed.

Lemma thread_pool_zero_concurrency_witness :
  cols B11 = rows B11 ∧
  ret (multiply_thread_pool 0 [] B11 B11) = Undefined division_by_zero.
Proof.
  split; [reflexivity|].
  exact (thread_pool_zero_concurrency [] B11 B11 eq_refl).
Defined.

(** C6.  Multiplying an [R]×0 matrix by a 0×[C] matrix succeeds in the
    serial and in the task-based multiplier, and in the thread-pool
    multiplier for every positive hardware concurrency, and yields the
    [R]×[C] matrix of zeros.  When the hardware concurrency is reported as
    zero the thread-pool multiplier divides by zero instead. *)
Theorem empty_contraction {T : Type} `{Numeric T}
    (P : nat) (sched_async sched_pool : list nat) (A B : Matrix T) :
  wf A → wf B → cols A = 0 → rows B = 0 →
  ret (multiply_serial A B) = Returned (Matrix_new (rows A) (cols B)) ∧
  ret (multiply_async sched_async A B) = Returned (Matrix_new (rows A) (cols B)) ∧
  ret (multiply_thread_pool P sched_pool A B)
  = (if P =? 0 then Undefined division_by_zero
     else Returned (Matrix_new (rows A) (cols B))) ∧
  (∀ i j, i < rows A → j < cols B →
     lookup2 (data (Matrix_new (rows A) (cols B))) i j = Some zero).
Proof.
  intros _ _ HK HB.
  assert (cols A = rows B) as Hd by congruence.
  assert (serial_result A B = Some (Matrix_new (rows A) (cols B))) as HM.
  { unfold serial_result. by rewrite all_work_empty. }
  destruct (multiply_serial_ret A B Hd) as (M & HM' & Hs).
  destruct (multiply_async_ret sched_async A B Hd) as (Ma & HMa & Ha).
  split; [congruence|]. split; [congruence|]. split.
  - destruct (Nat.eqb_spec P 0) as [->|HP].
    + by rewrite multiply_thread_pool_unfold, guard_passes.
    + destruct (multiply_thread_pool_ret P sched_pool A B Hd ltac:(lia))
        as (Mp & HMp & Hp).
      congruence.
  - intros i j Hi Hj. by apply Matrix_new_lookup2.
Qed.

Lemma empty_contraction_witness :
  wf A20 ∧ wf B03 ∧ cols A20 = 0 ∧ rows B03 = 0 ∧
  ret (multiply_serial A20 B03) = Returned (Matrix_new 2 3) ∧
  ret (multiply_async [1; 0] A20 B03) = Returned (Matrix_new 2 3) ∧
  ret (multiply_thread_pool 0 [1; 0] A20 B03) = Undefined division_by_zero.
Proof.
  assert (wf A20) as HA by wf_by_computation.
  assert (wf B03) as HB by wf_by_computation.
  do 4 (split; [done|]).
  destruct (empty_contraction 0 [1; 0] [1; 0] A20 B03 HA HB eq_refl eq_refl)
    as (Hs & Ha & Hp & _).
  exact (conj Hs (conj Ha Hp)).
Defined.

(** C7.  With fewer rows than threads, [R < P], exactly [P - R] of the
    [P] ranges are empty; the thread of an empty range has no statement to
    execute and so writes nothing.  Under every schedule the call returns,
    all [P] threads have finished at the joins, and the matrix returned is
    the one the serial multiplier returns. *)
Theorem degenerate_parallelism {T : Type} `{Numeric T}
    (P : nat) (sched : list nat) (A B : Matrix T) :
  wf A → wf B → cols A = rows B → rows A < P →
  length (filter (λ p, snd p = 0) (partitions (rows A) P)) = P - rows A ∧
  (∀ t p, partitions (rows A) P !! t = Some p → snd p = 0 →
     pool_units (body_state A B) P !! t = Some []) ∧
  (∃ M, ret (multiply_thread_pool P sched A B) = Returned M
        ∧ ret (multiply_serial A B) = Returned M) ∧
  units (final (multiply_thread_pool P sched A B)) = replicate P [].
Proof.
  intros _ _ Hd HRP.
  split; [by apply empty_partitions_count|].
  split.
  { intros t [start n] Ht Hn. simpl in Hn. subst n.
    rewrite pool_units_partitions, list_lookup_fmap.
    change (rows (this (body_state A B))) with (rows A). rewrite Ht. simpl.
    unfold for_ops. by rewrite Nat.add_0_r, Nat.sub_diag. }
  split.
  { destruct (multiply_serial_ret A B Hd) as (M & HM & Hs).
    destruct (multiply_thread_pool_ret P sched A B Hd ltac:(lia))
      as (Mp & HMp & Hp).
    exists M. split; congruence. }
  rewrite multiply_thread_pool_unfold, guard_passes by done.
  destruct (Nat.eqb_spec P 0) as [?|_]; [lia|].
  rewrite return_result_final, joined_units.
  rewrite pool_units_partitions, length_map. by rewrite partitions_length.
Qed.

Lemma degenerate_parallelism_witness :
  wf A22 ∧ wf B22 ∧ cols A22 = rows B22 ∧ rows A22 < 5 ∧
  length (filter (λ p, snd p = 0) (partitions (rows A22) 5)) = 5 - rows A22 ∧
  units (final (multiply_thread_pool 5 [4; 1; 0; 3] A22 B22)) = replicate 5 [].
Proof.
  assert (wf A22) as HA by wf_by_computation.
  assert (wf B22) as HB by wf_by_computation.
  do 3 (split; [done|]). split; [simpl; lia|].
  destruct (degenerate_parallelism 5 [4; 1; 0; 3] A22 B22 HA HB eq_refl
              ltac:(simpl; lia)) as (Hn & _ & _ & Hu).
  exact (conj Hn Hu).
Defined.

(** C8.  Multiplying a matrix [A] ([R]×[K]) of finite [double]s by the
    [K]×[K] identity matrix returns, from the serial and the task-based
    multiplier and from the thread-pool multiplier with a positive degree
    of parallelism, under every schedule, one and the same [R]×[K] matrix;
    every element of it is [==] to the element of [A] at the same place,
    and so equal to it within the tolerance. *)
Theorem identity_right (P : nat) (sched_async sched_pool : list nat)
    (A : Matrix float) :
  wf A → usable_matrix double_finite A → 1 ≤ P →
  ∃ M, ret (multiply_serial A (identity 1%float (cols A))) = Returned M ∧
       ret (multiply_async sched_async A (identity 1%float (cols A)))
         = Returned M ∧
       ret (multiply_thread_pool P sched_pool A (identity 1%float (cols A)))
         = Returned M ∧
       wf M ∧ rows M = rows A ∧ cols M = cols A ∧
       ∀ i j, i < rows A → j < cols A →
         (elem (data M) i j =? elem (data A) i j)%float = true ∧
         within_tolerance (elem (data M) i j) (elem (data A) i j) = true.
Proof.
  intros Hwf HA HP.
  destruct (@identity_right_laws float double_Numeric 1%float
              double_finite double_zero double_close
              eq_refl double_mul_zero double_add_zeros double_add_zero_l
              double_add_zero_r P sched_async sched_pool A Hwf HA HP)
    as (M & Hs & Ha & Hp & HwfM & Hr & Hc & Hel).
  exists M. do 6 (split; [done|]).
  intros i j Hi Hj.
  destruct (Hel i j Hi Hj) as (x & a & Hx & Ha' & Hclose).
  unfold elem, within_tolerance. rewrite Hx, Ha'. simpl.
  unfold double_close in Hclose. by rewrite Hclose.
Qed.

Lemma identity_right_witness :
  wf A22d ∧ usable_matrix double_finite A22d ∧ 1 ≤ 3 ∧
  ∃ M, ret (multiply_serial A22d (identity 1%float (cols A22d))) = Returned M ∧
       ret (multiply_async [0; 1; 1] A22d (identity 1%float (cols A22d)))
         = Returned M ∧
       ret (multiply_thread_pool 3 [2; 0] A22d (identity 1%float (cols A22d)))
         = Returned M ∧
       within_tolerance (elem (data M) 1 0) 3%float = true.
Proof.
  assert (wf A22d) as HA by wf_by_computation.
  assert (usable_matrix double_finite A22d) as HU by (repeat constructor).
  split; [done|]. split; [done|]. split; [lia|].
  destruct (identity_right 3 [0; 1; 1] [2; 0] A22d HA HU ltac:(lia))
    as (M & Hs & Ha & Hp & _ & _ & _ & Hel).
  exists M. do 3 (split; [done|]).
  exact (proj2 (Hel 1 0 ltac:(simpl; lia) ltac:(simpl; lia))).
Defined.

(** Without the restriction to finite elements the identity check fails
    in [double]: for the 1×2 matrix with the elements [infinity] and [1],
    element [(0, 1)] of the product is [0 + infinity * 0 + 1 * 1], which is
    not a number. *)
Lemma identity_right_fails_at_infinity :
  ¬ (∀ A : Matrix float, wf A →
       ∃ M, ret (multiply_serial A (identity 1%float (cols A))) = Returned M ∧
            ∀ i j, i < rows A → j < cols A →
              within_tolerance (elem (data M) i j) (elem (data A) i j) = true).
Proof.
  intros Hall.
  destruct (Hall A12inf ltac:(wf_by_computation)) as (M & HM & Hel).
  vm_compute in HM. injection HM as <-.
  specialize (Hel 0 1 ltac:(simpl; lia) ltac:(simpl; lia)).
  vm_compute in Hel. discriminate.
Qed.

(** C9.  Every call leaves both operands as they were, whether it
    returns, throws or divides by zero, for every schedule. *)
Theorem operands_unchanged {T : Type} `{Numeric T}
    (P : nat) (sched_async sched_pool : list nat) (A B : Matrix T) :
  (this (final (multiply_serial A B)) = A
   ∧ other (final (multiply_serial A B)) = B) ∧
  (this (final (multiply_async sched_async A B)) = A
   ∧ other (final (multiply_async sched_async A B)) = B) ∧
  (this (final (multiply_thread_pool P sched_pool A B)) = A
   ∧ other (final (multiply_thread_pool P sched_pool A B)) = B).
Proof.
  rewrite multiply_serial_unfold, multiply_async_unfold,
    multiply_thread_pool_unfold.
  destruct (negb (cols A =? rows B)); [done|].
  rewrite !return_result_final.
  split; [by rewrite run_ops_this, run_ops_other|].
  split.
  - destruct (wait_all_operands (run_schedule sched_async
      (set_units (map (row_work (body_state A B)) (seq 0 (rows A)))
         (body_state A B)))) as [-> ->].
    by destruct (run_schedule_operands sched_async
      (set_units (map (row_work (body_state A B)) (seq 0 (rows A)))
         (body_state A B))) as [-> ->].
  - destruct (P =? 0); [done|]. rewrite return_result_final.
    destruct (wait_all_operands (run_schedule sched_pool
      (set_units (pool_units (body_state A B) P) (body_state A B))))
      as [-> ->].
    by destruct (run_schedule_operands sched_pool
      (set_units (pool_units (body_state A B) P) (body_state A B)))
      as [-> ->].
Qed.

(** * Further properties of the code *)

(** ** [randomInit] *)

Section Generator.
Context {T : Type} `{Numeric T}.
Implicit Types (M : Matrix T) (dis : nat → T).

Lemma randomInit_row_fold dis row :
  ∀ filled n,
    fold_left (λ '(filled, n) (_ : T), (filled ++ [dis n], S n)) row (filled, n)
    = (filled ++ imap (λ j _, dis (n + j)) row, n + length row).
Proof.
  induction row as [|x row IH]; intros filled n; simpl.
  - by rewrite app_nil_r, Nat.add_0_r.
  - rewrite IH, <- app_assoc. simpl. rewrite Nat.add_0_r.
    f_equal; [|lia]. do 2 f_equal. apply imap_ext. intros j y _. simpl.
    f_equal. lia.
Qed.

Lemma randomInit_row_spec dis row n :
  randomInit_row dis row n = (imap (λ j _, dis (n + j)) row, n + length row).
Proof. apply (randomInit_row_fold dis row [] n). Qed.

Lemma randomInit_rows_fold dis c d :
  Forall (λ row : list T, length row = c) d →
  ∀ filled n,
    fold_left (λ '(filled, n) row,
        let '(row', n') := randomInit_row dis row n in (filled ++ [row'], n'))
      d (filled, n)
    = (filled ++ imap (λ i row, imap (λ j _, dis (n + (i * c + j))) row) d,
       n + length d * c).
Proof.
  induction 1 as [|row d Hrow _ IH]; intros filled n; simpl.
  - by rewrite app_nil_r, Nat.add_0_r.
  - rewrite randomInit_row_spec, IH, <- app_assoc, Hrow. simpl.
    f_equal; [|lia]. do 2 f_equal.
    apply imap_ext. intros i r _. simpl.
    apply imap_ext. intros j y _. simpl. f_equal. lia.
Qed.

Lemma randomInit_from_wf dis M n : wf M → wf (fst (randomInit_from dis M n)).
Proof.
  intros [Hlen Hrows]. unfold randomInit_from.
  rewrite (randomInit_rows_fold dis (cols M) (data M) Hrows [] n).
  exact (randomInit_wf (λ k, dis (n + k)) M (conj Hlen Hrows)).
Qed.

Lemma randomInit_from_shape dis M n :
  rows (fst (randomInit_from dis M n)) = rows M ∧
  cols (fst (randomInit_from dis M n)) = cols M.
Proof.
  unfold randomInit_from. by destruct (fold_left _ _ _).
Qed.
End Generator.

(** X1.  [randomInit] with its generator threaded through the two loops is
    the closed form: on a well-formed matrix it draws exactly
    [rows * cols] values, and element [(i, j)] receives the draw number
    [i * cols + j] counted from where the generator stood. *)
Theorem randomInit_draws {T : Type} `{Numeric T}
    (dis : nat → T) (M : Matrix T) (n : nat) :
  wf M →
  randomInit_from dis M n
  = (randomInit (λ k, dis (n + k)) M, n + rows M * cols M).
Proof.
  intros [Hlen Hrows]. unfold randomInit_from, randomInit.
  rewrite (randomInit_rows_fold dis (cols M) (data M) Hrows [] n).
  simpl. by rewrite Hlen.
Qed.

Lemma randomInit_draws_witness :
  wf A22 ∧
  randomInit_from (λ k, Z.of_nat k) A22 7
  = (mkMatrix [[7; 8]; [9; 10]]%Z 2 2, 11).
Proof.
  assert (wf A22) as HA by wf_by_computation.
  split; [done|].
  rewrite (randomInit_draws (λ k, Z.of_nat k) A22 7 HA). reflexivity.
Defined.

(** X2.  [randomInit] keeps the shape and the class invariant and
    overwrites every element: element [(i, j)] is draw number
    [i * cols + j] whatever the matrix held before, so two matrices of the
    same shape become equal, and a property of the first [rows * cols]
    draws is a property of every element. *)
Theorem randomInit_overwrites {T : Type} `{Numeric T}
    (dis : nat → T) (M : Matrix T) :
  wf M →
  wf (randomInit dis M) ∧
  rows (randomInit dis M) = rows M ∧ cols (randomInit dis M) = cols M ∧
  (∀ i j, i < rows M → j < cols M →
     lookup2 (data (randomInit dis M)) i j = Some (dis (i * cols M + j))) ∧
  (∀ N, wf N → rows N = rows M → cols N = cols M →
     randomInit dis N = randomInit dis M) ∧
  (∀ good : T → Prop, (∀ k, k < rows M * cols M → good (dis k)) →
     usable_matrix good (randomInit dis M)).
Proof.
  intros Hwf.
  assert (∀ N i j, wf N → i < rows N → j < cols N →
            lookup2 (data (randomInit dis N)) i j = Some (dis (i * cols N + j)))
    as Hel.
  { intros N i j HN Hi Hj.
    destruct (wf_lookup2 N i j HN Hi Hj) as [x Hx].
    unfold lookup2 in *. simpl. rewrite list_lookup_imap.
    destruct (data N !! i) as [row|]; [|done]. simpl in *.
    rewrite list_lookup_imap, Hx. done. }
  split; [by apply randomInit_wf|]. do 2 (split; [done|]).
  split; [intros i j Hi Hj; by apply Hel|]. split.
  - intros N HN Hr Hc. apply matrix_ext; try by apply randomInit_wf.
    + done.
    + done.
    + intros i j Hi Hj.
      change (rows (randomInit dis N)) with (rows N) in Hi.
      change (cols (randomInit dis N)) with (cols N) in Hj.
      rewrite (Hel N), (Hel M) by (done || lia). by rewrite Hc.
  - intros good Hgood. destruct Hwf as [Hlen Hrows].
    apply Forall_lookup. intros i row'. simpl. rewrite list_lookup_imap.
    destruct (data M !! i) as [row|] eqn:Hrow; [|done]. intros [= <-].
    apply Forall_lookup. intros j y. rewrite list_lookup_imap.
    destruct (row !! j) as [x|] eqn:Hx; [|done]. intros [= <-].
    apply Hgood.
    pose proof (lookup_lt_Some _ _ _ Hrow) as Hi.
    pose proof (lookup_lt_Some _ _ _ Hx) as Hj.
    rewrite Forall_lookup in Hrows. rewrite (Hrows _ _ Hrow) in Hj. nia.
Qed.

Lemma randomInit_overwrites_witness :
  wf A22 ∧
  lookup2 (data (randomInit (λ k, Z.of_nat (10 * k)) A22)) 1 0 = Some 20%Z.
Proof.
  assert (wf A22) as HA by wf_by_computation.
  split; [done|].
  destruct (randomInit_overwrites (λ k, Z.of_nat (10 * k)) A22 HA)
    as (_ & _ & _ & Hel & _).
  exact (Hel 1 0 ltac:(simpl; lia) ltac:(simpl; lia)).
Defined.

(** ** The three multipliers *)

Section Units.
Context {T : Type} `{Numeric T}.
Implicit Types (s : @state T) (o : op) (w : task) (us : list task).
Implicit Types (A B M : Matrix T).

Lemma async_units_concat A B :
  concat (map (row_work (body_state A B)) (seq 0 (rows A))) = all_work A B.
Proof. unfold all_work, for_ops. by rewrite Nat.sub_0_r, flat_map_concat_map. Qed.

Lemma pool_units_all_work P A B :
  1 ≤ P → concat (pool_units (body_state A B) P) = all_work A B.
Proof. intros HP. by rewrite pool_units_concat. Qed.

Lemma pool_units_length s P : length (pool_units s P) = P.
Proof. by rewrite pool_units_partitions, length_map, partitions_length. Qed.

Lemma in_pool_units s P w o :
  In w (pool_units s P) → In o w →
  In o (for_ops 0 (rows (this s)) (row_work s)).
Proof.
  intros Hw Ho. destruct (decide (P = 0)) as [->|HP].
  - by destruct Hw.
  - rewrite <- (pool_units_concat s P) by lia. apply in_concat. eauto.
Qed.

Lemma all_work_in_bounds A B o :
  wf A → wf B → cols A = rows B → In o (all_work A B) → in_bounds A B o.
Proof.
  intros HA HB Hd Ho.
  destruct (in_all_work A B o Ho) as (i & j & k & -> & Hi & Hj & Hk).
  destruct (serial_work_in_bounds A B i j k HA HB Hd Ho) as (? & ? & _).
  done.
Qed.

Lemma nsteps_pending n s s' : nsteps step n s s' → n + pending s' = pending s.
Proof.
  induction 1 as [|n s1 s2 s3 H12 _ IH]; [done|].
  apply step_pending in H12. lia.
Qed.

Lemma drain_launched us A B :
  concat us = all_work A B →
  result (drain (set_units us (body_state A B))) = serial_result A B ∧
  this (drain (set_units us (body_state A B))) = A ∧
  other (drain (set_units us (body_state A B))) = B.
Proof.
  intros Hus. unfold drain. cbn [units set_units result this other].
  rewrite Hus, run_ops_set_units. cbn [set_units result this other].
  by rewrite run_ops_this, run_ops_other.
Qed.

Lemma launched_runs us A B n s' :
  separated us → concat us = all_work A B →
  nsteps step n (set_units us (body_state A B)) s' →
  n + pending s' = rows A * cols B * cols A ∧
  (pending s' ≠ 0 → ∃ s'', step s' s'') ∧
  (pending s' = 0 →
     result s' = serial_result A B ∧ this s' = A ∧ other s' = B).
Proof.
  intros Hsep Hus Hsteps. split; [|split].
  - rewrite (nsteps_pending _ _ _ Hsteps). unfold pending.
    cbn [units set_units]. by rewrite Hus, all_work_length.
  - apply step_progress.
  - intros Hp.
    rewrite (interleavings_agree (set_units us (body_state A B)) s');
      [by apply drain_launched|done|by eapply rtc_nsteps_2|done].
Qed.

Lemma multipliers_operands P sched_async sched_pool A B :
  (this (final (multiply_serial A B)) = A ∧
   other (final (multiply_serial A B)) = B) ∧
  (this (final (multiply_async sched_async A B)) = A ∧
   other (final (multiply_async sched_async A B)) = B) ∧
  (this (final (multiply_thread_pool P sched_pool A B)) = A ∧
   other (final (multiply_thread_pool P sched_pool A B)) = B).
Proof.
  rewrite multiply_serial_unfold, multiply_async_unfold,
    multiply_thread_pool_unfold.
  destruct (negb (cols A =? rows B)); [done|].
  rewrite !return_result_final. split; [|split].
  - by rewrite run_ops_this, run_ops_other.
  - destruct (wait_all_operands (run_schedule sched_async
        (set_units (map (row_work (body_state A B)) (seq 0 (rows A)))
           (body_state A B)))) as [-> ->].
    by destruct (run_schedule_operands sched_async
        (set_units (map (row_work (body_state A B)) (seq 0 (rows A)))
           (body_state A B))) as [-> ->].
  - destruct (P =? 0); [done|]. rewrite return_result_final.
    destruct (wait_all_operands (run_schedule sched_pool
        (set_units (pool_units (body_state A B) P) (body_state A B))))
      as [-> ->].
    by destruct (run_schedule_operands sched_pool
        (set_units (pool_units (body_state A B) P) (body_state A B)))
      as [-> ->].
Qed.
End Units.

(** X3.  A matrix returned by any of the three multipliers is a
    well-formed [rows A] × [cols B] matrix, and a matrix is returned only
    when the dimensions agree. *)
Theorem returned_matrix_shape {T : Type} `{Numeric T}
    (P : nat) (sched_async sched_pool : list nat) (A B M : Matrix T) :
  wf A → wf B →
  ret (multiply_serial A B) = Returned M ∨
  ret (multiply_async sched_async A B) = Returned M ∨
  ret (multiply_thread_pool P sched_pool A B) = Returned M →
  cols A = rows B ∧ wf M ∧ rows M = rows A ∧ cols M = cols B.
Proof.
  intros _ _ Hret.
  destruct (Nat.eqb_spec (cols A) (rows B)) as [Hd|Hne].
  - split; [done|].
    destruct (serial_result_elements A B) as (M0 & HM0 & Hr & Hc & Hwf & _).
    destruct (multiply_serial_ret A B Hd) as (M1 & HM1 & Hs).
    destruct (multiply_async_ret sched_async A B Hd) as (M2 & HM2 & Ha).
    assert (M = M0) as ->; [|done].
    destruct Hret as [Hret|[Hret|Hret]].
    + congruence.
    + congruence.
    + destruct (decide (P = 0)) as [->|HP].
      * rewrite multiply_thread_pool_unfold, guard_passes in Hret by done.
        done.
      * destruct (multiply_thread_pool_ret P sched_pool A B Hd ltac:(lia))
          as (M3 & HM3 & Hp).
        congruence.
  - exfalso. revert Hret.
    rewrite multiply_serial_unfold, multiply_async_unfold,
      multiply_thread_pool_unfold, guard_fails by done.
    by intros [|[|]].
Qed.

Lemma returned_matrix_shape_witness :
  wf A22 ∧ wf B22 ∧ ret (multiply_serial A22 B22) = Returned C22 ∧ wf C22.
Proof.
  assert (wf A22) as HA by wf_by_computation.
  assert (wf B22) as HB by wf_by_computation.
  assert (ret (multiply_serial A22 B22) = Returned C22) as Hret by reflexivity.
  do 3 (split; [done|]).
  apply (returned_matrix_shape 1 [] [] A22 B22 C22 HA HB). by left.
Defined.

(** X4.  Once the guard has passed, the serial multiplier executes the
    statements [all_work], the task-based one launches the units of
    [launched_async] and the pool those of [launched_pool]; on
    well-formed operands every statement of every one of them indexes
    inside both operands and inside the result. *)
Theorem statements_in_bounds {T : Type} `{Numeric T}
    (P : nat) (sched_async sched_pool : list nat) (A B : Matrix T) :
  wf A → wf B → cols A = rows B →
  (multiply_serial A B = return_result (run_ops (all_work A B) (body_state A B))
   ∧ ∀ o, In o (all_work A B) → in_bounds A B o) ∧
  (multiply_async sched_async A B
   = return_result (wait_all (run_schedule sched_async (launched_async A B)))
   ∧ ∀ w o, In w (units (launched_async A B)) → In o w → in_bounds A B o) ∧
  ((1 ≤ P →
    multiply_thread_pool P sched_pool A B
    = return_result (wait_all (run_schedule sched_pool (launched_pool P A B))))
   ∧ ∀ w o, In w (units (launched_pool P A B)) → In o w → in_bounds A B o).
Proof.
  intros HA HB Hd. split; [|split]; split.
  - by rewrite multiply_serial_unfold, guard_passes.
  - intros o. by apply all_work_in_bounds.
  - by rewrite multiply_async_unfold, guard_passes.
  - intros w o Hw Ho. apply all_work_in_bounds; try done.
    rewrite <- async_units_concat. apply in_concat. eauto.
  - intros HP. rewrite multiply_thread_pool_unfold, guard_passes by done.
    by destruct (Nat.eqb_spec P 0) as [?|_]; [lia|].
  - intros w o Hw Ho. apply all_work_in_bounds; try done.
    by apply (in_pool_units (body_state A B) P w o).
Qed.

Lemma statements_in_bounds_witness :
  wf A22 ∧ wf B22 ∧ in_bounds A22 B22 (Acc 1 0 1).
Proof.
  assert (wf A22) as HA by wf_by_computation.
  assert (wf B22) as HB by wf_by_computation.
  do 2 (split; [done|]).
  destruct (statements_in_bounds 1 [] [] A22 B22 HA HB eq_refl)
    as ((_ & Hin) & _).
  apply Hin. simpl. tauto.
Defined.

(** X5.  The units of the concurrent multipliers write disjoint rows of
    the result: two different units never hold statements for the same
    row, the unit launched for row [i] holds statements for row [i]
    only, and thread [t] of the pool only for the rows of its range. *)
Theorem units_write_disjoint_rows {T : Type} `{Numeric T}
    (P : nat) (A B : Matrix T) :
  separated (units (launched_async A B)) ∧
  separated (units (launched_pool P A B)) ∧
  (∀ i w o, units (launched_async A B) !! i = Some w → In o w → op_row o = i) ∧
  (∀ t w p o,
     units (launched_pool P A B) !! t = Some w →
     partitions (rows A) P !! t = Some p →
     In o w → fst p ≤ op_row o < fst p + snd p).
Proof.
  split; [apply async_units_separated|].
  split; [apply pool_units_separated|]. split.
  - intros i w o Hw Ho. cbn [launched_async units set_units] in Hw.
    rewrite list_lookup_fmap in Hw.
    destruct (seq 0 (rows A) !! i) as [i'|] eqn:Ei; [|done].
    apply lookup_seq in Ei as [-> _]. simplify_eq/=.
    by apply in_row_work in Ho as (? & ? & -> & _).
  - intros t w p o Hw Hp Ho. cbn [launched_pool units set_units] in Hw.
    rewrite pool_units_partitions, list_lookup_fmap in Hw.
    change (rows (this (body_state A B))) with (rows A) in Hw.
    rewrite Hp in Hw. simplify_eq/=.
    apply in_for_ops in Ho as (i & Hi & Ho).
    by apply in_row_work in Ho as (? & ? & -> & _).
Qed.

(** X6.  Every interleaved execution of the launched units makes
    progress until no statement is left, executes exactly
    [rows A * cols B * cols A] statements, and then holds the result of
    the serial loops, with the operands as they were. *)
Theorem every_interleaving_completes {T : Type} `{Numeric T}
    (P : nat) (A B : Matrix T) (s0 s' : @state T) (n : nat) :
  wf A → wf B → cols A = rows B →
  s0 = launched_async A B ∨ (1 ≤ P ∧ s0 = launched_pool P A B) →
  nsteps step n s0 s' →
  n + pending s' = rows A * cols B * cols A ∧
  (pending s' ≠ 0 → ∃ s'', step s' s'') ∧
  (pending s' = 0 →
     result s' = serial_result A B ∧ this s' = A ∧ other s' = B).
Proof.
  intros _ _ _ [->|[HP ->]] Hsteps.
  - apply (launched_runs (units (launched_async A B)) A B n s');
      [apply async_units_separated|apply async_units_concat|done].
  - apply (launched_runs (units (launched_pool P A B)) A B n s');
      [apply pool_units_separated|by apply pool_units_all_work|done].
Qed.

Lemma every_interleaving_completes_witness :
  wf A22 ∧ wf B22 ∧ cols A22 = rows B22 ∧
  nsteps step 0 (launched_async A22 B22) (launched_async A22 B22) ∧
  0 + pending (launched_async A22 B22) = 2 * 2 * 2.
Proof.
  assert (wf A22) as HA by wf_by_computation.
  assert (wf B22) as HB by wf_by_computation.
  assert (nsteps step 0 (launched_async A22 B22) (launched_async A22 B22))
    as Hsteps by constructor.
  do 4 (split; [done|]).
  exact (proj1 (every_interleaving_completes 1 A22 B22 _ _ 0 HA HB eq_refl
                  (or_introl eq_refl) Hsteps)).
Defined.

(** X7.  When the multipliers return, every unit they launched has been
    joined: one unit per row for the task-based multiplier, exactly
    [hardware_concurrency] threads for the pool, none for the serial
    one. *)
Theorem launched_units_joined {T : Type} `{Numeric T}
    (P : nat) (sched_async sched_pool : list nat) (A B : Matrix T) :
  wf A → wf B → cols A = rows B →
  units (final (multiply_serial A B)) = [] ∧
  units (final (multiply_async sched_async A B)) = replicate (rows A) [] ∧
  (1 ≤ P →
   units (final (multiply_thread_pool P sched_pool A B)) = replicate P []).
Proof.
  intros _ _ Hd.
  rewrite multiply_serial_unfold, multiply_async_unfold,
    multiply_thread_pool_unfold, guard_passes by done.
  rewrite !return_result_final. split; [|split].
  - by rewrite run_ops_units.
  - by rewrite joined_units, length_map, length_seq.
  - intros HP. destruct (Nat.eqb_spec P 0) as [?|_]; [lia|].
    by rewrite return_result_final, joined_units, pool_units_length.
Qed.

Lemma launched_units_joined_witness :
  wf A22 ∧ wf B22 ∧ cols A22 = rows B22 ∧
  units (final (multiply_async [1; 0; 1] A22 B22)) = [[]; []].
Proof.
  assert (wf A22) as HA by wf_by_computation.
  assert (wf B22) as HB by wf_by_computation.
  do 3 (split; [done|]).
  exact (proj1 (proj2
    (launched_units_joined 1 [1; 0; 1] [] A22 B22 HA HB eq_refl))).
Defined.

(** X8.  When a dimension is zero no statement is executed, and all
    three multipliers return the [rows A] × [cols B] matrix as it is
    constructed. *)
Theorem empty_dimension {T : Type} `{Numeric T}
    (P : nat) (sched_async sched_pool : list nat) (A B : Matrix T) :
  wf A → wf B → cols A = rows B → 1 ≤ P →
  rows A = 0 ∨ cols B = 0 ∨ cols A = 0 →
  all_work A B = [] ∧
  ret (multiply_serial A B) = Returned (Matrix_new (rows A) (cols B)) ∧
  ret (multiply_async sched_async A B) = Returned (Matrix_new (rows A) (cols B)) ∧
  ret (multiply_thread_pool P sched_pool A B)
  = Returned (Matrix_new (rows A) (cols B)).
Proof.
  intros _ _ Hd HP Hzero.
  assert (all_work A B = []) as Hw.
  { apply length_zero_iff_nil. rewrite all_work_length.
    destruct Hzero as [-> | [-> | ->]]; lia. }
  split; [done|].
  destruct (multiply_serial_ret A B Hd) as [M1 [HM1 ->]].
  destruct (multiply_async_ret sched_async A B Hd) as [M2 [HM2 ->]].
  destruct (multiply_thread_pool_ret P sched_pool A B Hd HP) as [M3 [HM3 ->]].
  unfold serial_result in *. rewrite Hw in *. simpl in *.
  by simplify_eq.
Qed.

Lemma empty_dimension_witness :
  wf A20 ∧ wf B03 ∧ cols A20 = rows B03 ∧ 1 ≤ 3 ∧
  ret (multiply_thread_pool 3 [] A20 B03) = Returned (Matrix_new 2 3).
Proof.
  assert (wf A20) as HA by wf_by_computation.
  assert (wf B03) as HB by wf_by_computation.
  do 2 (split; [done|]). split; [reflexivity|]. split; [lia|].
  exact (proj2 (proj2 (proj2
    (empty_dimension 3 [] [] A20 B03 HA HB eq_refl ltac:(lia)
       ltac:(by right; right))))).
Defined.

Section Stacking.
Context {T : Type} `{Numeric T}.
Implicit Types (A B M : Matrix T).

Lemma sigma_ext (f g : nat → T) n : (∀ k, f k = g k) → sigma n f = sigma n g.
Proof. intros Hfg. induction n as [|n IH]; [done|]. simpl. by rewrite IH, Hfg. Qed.

Lemma lookup2_app (d1 d2 : list (list T)) i j :
  lookup2 (d1 ++ d2) i j
  = if decide (i < length d1) then lookup2 d1 i j
    else lookup2 d2 (i - length d1) j.
Proof.
  unfold lookup2. case_decide.
  - by rewrite lookup_app_l.
  - by rewrite lookup_app_r by lia.
Qed.

Lemma stack_wf A1 A2 : wf A1 → wf A2 → cols A1 = cols A2 → wf (stack A1 A2).
Proof.
  intros [Hl1 Hr1] [Hl2 Hr2] Hc. split; simpl.
  - rewrite length_app. lia.
  - apply Forall_app. split; [done|]. by rewrite Hc.
Qed.

Lemma stack_serial_result A1 A2 B M1 M2 :
  wf A1 → wf A2 → cols A1 = cols A2 →
  serial_result A1 B = Some M1 → serial_result A2 B = Some M2 →
  serial_result (stack A1 A2) B = Some (stack M1 M2).
Proof.
  intros HA1 HA2 Hc H1 H2.
  destruct (serial_result_elements A1 B) as (M1' & E1 & Hr1 & Hc1 & Hwf1 & Hel1).
  destruct (serial_result_elements A2 B) as (M2' & E2 & Hr2 & Hc2 & Hwf2 & Hel2).
  destruct (serial_result_elements (stack A1 A2) B)
    as (M & -> & Hr & Hc' & Hwf & Hel).
  assert (M1' = M1) as -> by congruence.
  assert (M2' = M2) as -> by congruence.
  f_equal. apply matrix_ext.
  - done.
  - apply stack_wf; [done|done|congruence].
  - simpl in *. lia.
  - simpl in *. congruence.
  - intros i j Hi Hj. rewrite Hr in Hi. rewrite Hc' in Hj.
    rewrite (Hel i j Hi Hj). simpl. rewrite lookup2_app.
    destruct HA1 as [Hl1 _]. destruct Hwf1 as [Hlm1 _].
    simpl in Hi. case_decide as Hlt.
    + rewrite Hel1 by (done || lia). f_equal. apply sigma_ext. intros k.
      unfold term, elem. simpl. rewrite lookup2_app.
      by rewrite decide_True by lia.
    + rewrite Hel2 by (done || lia). rewrite Hc. f_equal. apply sigma_ext.
      intros k. unfold term, elem. simpl. rewrite lookup2_app.
      rewrite decide_False by lia. by rewrite Hlm1, Hr1, Hl1.
Qed.
End Stacking.

(** X9.  The rows of the product are computed independently of each
    other: the product of [A1] stacked on [A2] with [B] is the product of
    [A1] with [B] stacked on the product of [A2] with [B], for each of
    the three multipliers. *)
Theorem product_of_stacked_rows {T : Type} `{Numeric T}
    (P : nat) (sched_async sched_pool : list nat) (A1 A2 B : Matrix T) :
  wf A1 → wf A2 → wf B → cols A1 = cols A2 → cols A1 = rows B → 1 ≤ P →
  ∃ M1 M2,
    ret (multiply_serial A1 B) = Returned M1 ∧
    ret (multiply_serial A2 B) = Returned M2 ∧
    ret (multiply_serial (stack A1 A2) B) = Returned (stack M1 M2) ∧
    ret (multiply_async sched_async (stack A1 A2) B) = Returned (stack M1 M2) ∧
    ret (multiply_thread_pool P sched_pool (stack A1 A2) B)
    = Returned (stack M1 M2).
Proof.
  intros HA1 HA2 _ Hc Hd HP.
  destruct (multiply_serial_ret A1 B Hd) as [M1 [H1 R1]].
  destruct (multiply_serial_ret A2 B ltac:(congruence)) as [M2 [H2 R2]].
  pose proof (stack_serial_result A1 A2 B M1 M2 HA1 HA2 Hc H1 H2) as Hs.
  destruct (multiply_serial_ret (stack A1 A2) B Hd) as [M [HM RM]].
  destruct (multiply_async_ret sched_async (stack A1 A2) B Hd) as [Ma [HMa RMa]].
  destruct (multiply_thread_pool_ret P sched_pool (stack A1 A2) B Hd HP)
    as [Mp [HMp RMp]].
  exists M1, M2. do 2 (split; [done|]).
  split; [congruence|]. split; congruence.
Qed.

Lemma product_of_stacked_rows_witness :
  wf A12 ∧ wf B22 ∧ cols A12 = rows B22 ∧
  ret (multiply_serial (stack A12 A12) B22)
  = Returned (mkMatrix [[19; 22]; [19; 22]]%Z 2 2).
Proof.
  assert (wf A12) as HA by wf_by_computation.
  assert (wf B22) as HB by wf_by_computation.
  do 3 (split; [done|]).
  destruct (product_of_stacked_rows 1 [] [] A12 A12 B22 HA HA HB eq_refl eq_refl
              ltac:(lia))
    as (M1 & M2 & R1 & R2 & -> & _).
  assert (M1 = mkMatrix [[19; 22]]%Z 1 2) as ->.
  { assert (ret (multiply_serial A12 B22)
            = Returned (mkMatrix [[19; 22]]%Z 1 2)) as E by reflexivity.
    congruence. }
  assert (M2 = mkMatrix [[19; 22]]%Z 1 2) as ->.
  { assert (ret (multiply_serial A12 B22)
            = Returned (mkMatrix [[19; 22]]%Z 1 2)) as E by reflexivity.
    congruence. }
  reflexivity.
Defined.

(** ** [benchmark], [print] and [main] *)

Section Benchmark.
Context {T : Type} `{Numeric T}.
Implicit Types (A B M : Matrix T) (w : @io T) (pf : platform).

Lemma timed_returned pf label (multiply : Matrix T → Matrix T → run) A B w M :
  ret (multiply A B) = Returned M →
  this (final (multiply A B)) = A → other (final (multiply A B)) = B →
  timed pf label multiply (Bench A B w)
  = (Completed,
     Bench A B (IO (2 + reads w)
       (out w ++ [Str label;
                  Count (microseconds pf
                           (clock pf (1 + reads w) - clock pf (reads w)));
                  Str (" µs" ++ newline)]))).
Proof.
  intros Hret Hthis Hother. unfold timed, now, put. cbn [self arg world].
  rewrite Hret, Hthis, Hother. cbn [self arg world reads out].
  by rewrite <- !app_assoc.
Qed.

Lemma timed_thrown pf label (multiply : Matrix T → Matrix T → run) A B w e :
  ret (multiply A B) = Thrown e →
  this (final (multiply A B)) = A → other (final (multiply A B)) = B →
  timed pf label multiply (Bench A B w)
  = (Raised e, Bench A B (IO (1 + reads w) (out w))).
Proof.
  intros Hret Hthis Hother. unfold timed, now. cbn [self arg world].
  by rewrite Hret, Hthis, Hother.
Qed.

Lemma timed_undefined pf label (multiply : Matrix T → Matrix T → run) A B w u :
  ret (multiply A B) = Undefined u →
  this (final (multiply A B)) = A → other (final (multiply A B)) = B →
  timed pf label multiply (Bench A B w)
  = (Crashed u, Bench A B (IO (1 + reads w) (out w))).
Proof.
  intros Hret Hthis Hother. unfold timed, now. cbn [self arg world].
  by rewrite Hret, Hthis, Hother.
Qed.

Lemma benchmark_outcome pf A B w :
  wf A → wf B → cols A = rows B →
  benchmark pf (Bench A B w)
  = let r := reads w in
    let d1 := microseconds pf (clock pf (1 + r) - clock pf r) in
    let d2 := microseconds pf (clock pf (3 + r) - clock pf (2 + r)) in
    let d3 := microseconds pf (clock pf (5 + r) - clock pf (4 + r)) in
    if concurrency pf =? 0
    then (Crashed division_by_zero,
          Bench A B (IO (5 + r) (out w ++ take 6 (report d1 d2 d3))))
    else (Completed, Bench A B (IO (6 + r) (out w ++ report d1 d2 d3))).
Proof.
  intros _ _ Hd. unfold benchmark. cbv zeta.
  destruct (multipliers_operands (concurrency pf) (schedule_async pf)
              (schedule_pool pf) A B) as ((Hts & Hos) & (Hta & Hoa) & (Htp & Hop)).
  destruct (multiply_serial_ret A B Hd) as [M1 [_ R1]].
  destruct (multiply_async_ret (schedule_async pf) A B Hd) as [M2 [_ R2]].
  rewrite (timed_returned pf _ multiply_serial A B w M1) by done.
  rewrite (timed_returned pf _ (multiply_async (schedule_async pf)) A B _ M2)
    by done.
  cbn [reads out].
  destruct (Nat.eqb_spec (concurrency pf) 0) as [H0|Hpos].
  - rewrite (timed_undefined pf _
               (multiply_thread_pool (concurrency pf) (schedule_pool pf))
               A B _ division_by_zero); try done.
    + cbn [reads out]. by rewrite <- !app_assoc.
    + by rewrite multiply_thread_pool_unfold, guard_passes, H0.
  - destruct (multiply_thread_pool_ret (concurrency pf) (schedule_pool pf)
                A B Hd ltac:(lia)) as [M3 [_ R3]].
    rewrite (timed_returned pf _
               (multiply_thread_pool (concurrency pf) (schedule_pool pf))
               A B _ M3) by done.
    cbn [reads out]. by rewrite <- !app_assoc.
Qed.









End Benchmark.

(** X10.  [benchmark] on operands whose dimensions do not agree: the
    exception of the serial multiplier leaves it after one reading of the
    clock, with nothing printed and both matrices unchanged. *)
Theorem benchmark_rejects_mismatch {T : Type} `{Numeric T}
    (pf : platform) (A B : Matrix T) (w : io) :
  cols A ≠ rows B →
  benchmark pf (Bench A B w)
  = (Raised invalid_argument, Bench A B (IO (1 + reads w) (out w))).
Proof.
  intros Hne. unfold benchmark.
  destruct (multipliers_operands 0 [] [] A B) as ((Ht & Ho) & _).
  rewrite (timed_thrown pf _ multiply_serial A B w invalid_argument); try done.
  by rewrite multiply_serial_unfold, guard_fails.
Qed.

Lemma benchmark_rejects_mismatch_witness :
  cols A22 ≠ rows A12 ∧
  fst (benchmark (Platform (λ n, Z.of_nat n) id 2 [] []) (Bench A22 A12 (IO 0 [])))
  = Raised invalid_argument.
Proof.
  assert (cols A22 ≠ rows A12) as Hne by (simpl; lia).
  split; [done|].
  by rewrite (benchmark_rejects_mismatch
                (Platform (λ n, Z.of_nat n) id 2 [] []) A22 A12 (IO 0 []) Hne).
Defined.

(** X11.  [benchmark] on operands whose dimensions agree, with a positive
    [hardware_concurrency]: it completes after six readings of the clock,
    has appended exactly the three timing lines, each with the count of
    microseconds between the two readings around its multiplication, and
    leaves both matrices unchanged, whatever the schedules. *)
Theorem benchmark_reports {T : Type} `{Numeric T}
    (pf : platform) (A B : Matrix T) (w : io) :
  wf A → wf B → cols A = rows B → 1 ≤ concurrency pf →
  benchmark pf (Bench A B w)
  = (Completed,
     Bench A B (IO (6 + reads w)
       (out w ++
        report
          (microseconds pf (clock pf (1 + reads w) - clock pf (reads w)))
          (microseconds pf (clock pf (3 + reads w) - clock pf (2 + reads w)))
          (microseconds pf (clock pf (5 + reads w) - clock pf (4 + reads w)))))).
Proof.
  intros HA HB Hd HP. rewrite benchmark_outcome by done. cbv zeta.
  by destruct (Nat.eqb_spec (concurrency pf) 0) as [?|_]; [lia|].
Qed.

Lemma benchmark_reports_witness :
  wf A22 ∧ wf B22 ∧ cols A22 = rows B22 ∧ 1 ≤ 2 ∧
  benchmark (Platform (λ n, Z.of_nat (n * n)) id 2 [1; 0] [0; 1])
    (Bench A22 B22 (IO 0 []))
  = (Completed, Bench A22 B22 (IO 6 (report 1 5 9))).
Proof.
  assert (wf A22) as HA by wf_by_computation.
  assert (wf B22) as HB by wf_by_computation.
  do 2 (split; [done|]). split; [reflexivity|]. split; [lia|].
  exact (benchmark_reports (Platform (λ n, Z.of_nat (n * n)) id 2 [1; 0] [0; 1])
           A22 B22 (IO 0 []) HA HB eq_refl ltac:(simpl; lia)).
Defined.

(** X12.  [benchmark] when [hardware_concurrency] is zero: the serial and
    the task-based line are printed, then the division by zero of the
    thread-pool multiplier is reached, after five readings of the clock. *)
Theorem benchmark_zero_concurrency {T : Type} `{Numeric T}
    (pf : platform) (A B : Matrix T) (w : io) :
  wf A → wf B → cols A = rows B → concurrency pf = 0 →
  benchmark pf (Bench A B w)
  = (Crashed division_by_zero,
     Bench A B (IO (5 + reads w)
       (out w ++
        [Str "Serial Multiplication Time: ";
         Count (microseconds pf (clock pf (1 + reads w) - clock pf (reads w)));
         Str (" µs" ++ newline);
         Str "Async Multiplication Time: ";
         Count (microseconds pf (clock pf (3 + reads w) - clock pf (2 + reads w)));
         Str (" µs" ++ newline)]))).
Proof.
  intros HA HB Hd H0. rewrite benchmark_outcome by done. cbv zeta.
  by rewrite H0.
Qed.

Lemma benchmark_zero_concurrency_witness :
  wf A22 ∧ wf B22 ∧ cols A22 = rows B22 ∧
  fst (benchmark (Platform (λ n, Z.of_nat n) id 0 [] []) (Bench A22 B22 (IO 0 [])))
  = Crashed division_by_zero.
Proof.
  assert (wf A22) as HA by wf_by_computation.
  assert (wf B22) as HB by wf_by_computation.
  do 3 (split; [done|]).
  by rewrite (benchmark_zero_concurrency (Platform (λ n, Z.of_nat n) id 0 [] [])
                A22 B22 (IO 0 []) HA HB eq_refl eq_refl).
Defined.



(** X14.  [main] passes well-formed operands of agreeing dimensions to
    [benchmark] and so never raises: whatever values are drawn, whatever
    the clock and the schedules, it prints the three timing lines and returns when
    [hardware_concurrency] is positive, and reaches the division by zero
    after the first two lines (the first six items of the report) when
    it is zero. *)
Theorem main_outcome (pf : platform) (dis_A dis_B : nat → float) :
  main pf dis_A dis_B
  = let d1 := microseconds pf (clock pf 1 - clock pf 0) in
    let d2 := microseconds pf (clock pf 3 - clock pf 2) in
    let d3 := microseconds pf (clock pf 5 - clock pf 4) in
    if concurrency pf =? 0
    then (Crashed division_by_zero, IO 5 (take 6 (report d1 d2 d3)))
    else (Completed, IO 6 (report d1 d2 d3)).
Proof.
  unfold main. generalize SIZE. intros n. cbv zeta.
  rewrite benchmark_outcome.
  - cbv zeta. by destruct (concurrency pf =? 0).
  - apply randomInit_from_wf, Matrix_new_wf.
  - apply randomInit_from_wf, Matrix_new_wf.
  - destruct (randomInit_from_shape dis_A (Matrix_new n n) 0) as [_ ->].
    by destruct (randomInit_from_shape dis_B (Matrix_new n n) 0) as [-> _].
Qed.

(** * The scenario of the test suite, and two partitionings *)

Example identity_at_infinity :
  ret (multiply_serial A12inf (identity 1%float 2))
  = Returned (mkMatrix [[infinity; nan]] 1 2).
Proof. vm_compute. reflexivity. Qed.

Example serial_2x2 : ret (multiply_serial A22 B22) = Returned C22.
Proof. vm_compute. reflexivity. Qed.

Example serial_2x2_double : ret (multiply_serial A22d B22d) = Returned C22d.
Proof. vm_compute. reflexivity. Qed.

Example async_2x2_double :
  ret (multiply_async [1; 1; 0; 1] A22d B22d) = Returned C22d.
Proof. vm_compute. reflexivity. Qed.

Example thread_pool_2x2_double :
  ret (multiply_thread_pool 8 [7; 1; 0; 1] A22d B22d) = Returned C22d.
Proof. vm_compute. reflexivity. Qed.

Example async_2x2 :
  ret (multiply_async [1; 0; 0; 1; 1; 5; 0] A22 B22) = Returned C22.
Proof. vm_compute. reflexivity. Qed.

Example thread_pool_2x2 :
  ret (multiply_thread_pool 3 [2; 1; 0; 0; 1] A22 B22) = Returned C22.
Proof. vm_compute. reflexivity. Qed.

Example partitions_10_4 : partitions 10 4 = [(0, 3); (3, 3); (6, 2); (8, 2)].
Proof. vm_compute. reflexivity. Qed.

Example partitions_2_5 :
  partitions 2 5 = [(0, 1); (1, 1); (2, 0); (2, 0); (2, 0)].
Proof. vm_compute. reflexivity. Qed.
